(** * sqlsmith schema layer: a shallow embedding of [pkg/internal/sqlsmith/schema.go]

    The file follows the Go source function by function.  External
    collaborators (the [tree] and [types] packages, [database/sql],
    [math/rand], [strings]) are represented by the slice of them that
    [schema.go] touches. *)

From Stdlib Require Import String List Bool Arith Permutation.
From stdpp Require Import base option list gmap strings.

Open Scope string_scope.
Open Scope list_scope.

(** [types.T]: the [SemanticType] field and the result of the [Oid()]
    method. *)
Module types.
Record T := mk { SemanticType : N; Oid : N }.
End types.

(** ** The slice of package [tree] used by [schema.go] *)
Module tree.

(** [tree.Name] is a Go string type. *)
Definition Name := string.

(** [tree.NewTableName(db, tbl)] fixes the schema to [public] and sets the
    explicit flags, so a table name built by this file is determined by
    its catalog and its table part. *)
Record TableName := NewTableName { CatalogName : Name; TableName_ : Name }.

#[global] Instance TableName_eq_dec : EqDecision TableName.
Proof. solve_decision. Defined.

#[global] Instance TableName_countable : Countable TableName :=
  inj_countable'
    (fun t => (CatalogName t, TableName_ t))
    (fun p => NewTableName (fst p) (snd p))
    (fun t => match t with NewTableName _ _ => eq_refl end).

(** [tree.Direction]: the zero value is [DefaultDirection]. *)
Inductive Direction := DefaultDirection | Ascending | Descending.

(** [tree.Nullability]: the zero value is [NotNull]. *)
Inductive Nullability := NotNull | Null | SilentNull.

Module IndexElem.
Record t := mk { Column : Name; Direction : tree.Direction }.
End IndexElem.

Module CreateIndex.
Record t := mk {
  Name : tree.Name;
  Table : TableName;
  Columns : list IndexElem.t;
  Storing : list tree.Name
}.
End CreateIndex.

(** [tree.ColumnTableDef]; [Nullable.Nullability] and [Computed.Computed]
    are the only nested fields the source writes. *)
Module ColumnTableDef.
Record t (ColType : Type) := mk {
  Name : tree.Name;
  Type_ : ColType;
  Nullable : Nullability;
  Computed : bool
}.
Arguments mk {ColType} _ _ _ _.
Arguments Name {ColType} _.
Arguments Type_ {ColType} _.
Arguments Nullable {ColType} _.
Arguments Computed {ColType} _.
End ColumnTableDef.

Module TableIndexName.
Record t := mk { Table : TableName; Index : tree.Name }.
End TableIndexName.

(** *** Registry entries read by the catalogs *)

(** [tree.BinaryOperator] is an integer enumeration. *)
Definition BinaryOperator := N.

Module BinOp.
Record t := mk {
  LeftType : types.T;
  RightType : types.T;
  ReturnType : types.T
}.
End BinOp.

(** [tree.FunctionClass] is an integer enumeration. *)
Definition FunctionClass := N.

Module Overload.
(** [FixedReturnType] stands for the result of the method of that
    name. *)
Record t := mk { Info : string; FixedReturnType : types.T }.
End Overload.

Module FunctionDefinition.
Record t := mk {
  Name : string;
  Definition_ : list Overload.t;
  Class : FunctionClass;
  Category : string;
  Private : bool
}.
End FunctionDefinition.

End tree.

(** ** [database/sql] as seen by the two queries of this file *)
Module gosql.

(** A Go [error] value. *)
Definition error := string.

(** [*sql.Rows]: the rows delivered by successive [rows.Next()] calls, each
    of which [rows.Scan] either decodes or rejects, and the value of
    [rows.Err()] once [Next] has returned false. *)
Record Rows (A : Type) := mkRows {
  scans : list (error + A);
  Err : option error
}.
Arguments mkRows {A} _ _.
Arguments scans {A} _.
Arguments Err {A} _.

(** The pair returned by [db.Query]. *)
Definition QueryResult (A : Type) := (error + Rows A)%type.

End gosql.

(** The eight values scanned from a row of the column-metadata query. *)
Module ColumnsQuery.
Record row := mk {
  catalog : tree.Name;
  schema : tree.Name;
  name : tree.Name;
  col : tree.Name;
  typ : string;
  computed : bool;
  nullable : bool;
  hidden : bool
}.
End ColumnsQuery.

(** The four values scanned from a row of [SHOW INDEXES FROM t]. *)
Module IndexesQuery.
Record row := mk {
  idx : tree.Name;
  col : tree.Name;
  storing : bool;
  ascending : bool
}.
End IndexesQuery.

(** [*gosql.DB]: the answer to the column-metadata query and, for each table
    name formatted into [SHOW INDEXES FROM %s], the answer to that query. *)
Record DB := mkDB {
  QueryColumns : gosql.QueryResult ColumnsQuery.row;
  QueryIndexes : tree.TableName -> gosql.QueryResult IndexesQuery.row
}.

(** Go's [!=] on [tree.Name]. *)
Definition name_neq (a b : tree.Name) : bool := negb (String.eqb a b).

(** ** [tableRef] and [extractTables] *)
Section Tables.
Context {ColType : Type}.
(** [typeFromName] lives in another file of the package; it is taken as
    given. *)
Variable typeFromName : string -> ColType.

(** [tableRef] represents a table and its columns. *)
Record tableRef := mkTableRef {
  TableName : tree.TableName;
  Columns : list (tree.ColumnTableDef.t ColType)
}.

(** The local variables of [extractTables] that live across iterations. *)
Record loopState := mkLoop {
  firstTime : bool;
  lastCatalog : tree.Name;
  lastSchema : tree.Name;
  lastName : tree.Name;
  tables : list tableRef;
  currentCols : list (tree.ColumnTableDef.t ColType)
}.

(** The state before the first [rows.Next()]: Go zero values. *)
Definition loopInit : loopState := mkLoop true "" "" "" [] [].

(** The closure [emit]. *)
Definition emit (st : loopState) : loopState :=
  if name_neq (lastSchema st) "public" then st
  else mkLoop (firstTime st) (lastCatalog st) (lastSchema st) (lastName st)
         (tables st ++
            [mkTableRef (tree.NewTableName (lastCatalog st) (lastName st))
                        (currentCols st)])
         (currentCols st).

(** The [tree.ColumnTableDef] built from one scanned row. *)
Definition columnOf (r : ColumnsQuery.row) : tree.ColumnTableDef.t ColType :=
  let column :=
    tree.ColumnTableDef.mk (ColumnsQuery.col r)
      (typeFromName (ColumnsQuery.typ r)) tree.NotNull false in
  let column :=
    if ColumnsQuery.nullable r
    then tree.ColumnTableDef.mk (tree.ColumnTableDef.Name column)
           (tree.ColumnTableDef.Type_ column) tree.Null
           (tree.ColumnTableDef.Computed column)
    else column in
  if ColumnsQuery.computed r
  then tree.ColumnTableDef.mk (tree.ColumnTableDef.Name column)
         (tree.ColumnTableDef.Type_ column)
         (tree.ColumnTableDef.Nullable column) true
  else column.

(** One iteration of the [for rows.Next()] loop, after a successful
    [rows.Scan]. *)
Definition loopBody (st : loopState) (r : ColumnsQuery.row) : loopState :=
  if ColumnsQuery.hidden r then st
  else
    let st :=
      if firstTime st
      then mkLoop (firstTime st) (ColumnsQuery.catalog r)
             (ColumnsQuery.schema r) (ColumnsQuery.name r)
             (tables st) (currentCols st)
      else st in
    let st :=
      mkLoop false (lastCatalog st) (lastSchema st) (lastName st)
        (tables st) (currentCols st) in
    let st :=
      if name_neq (lastCatalog st) (ColumnsQuery.catalog r)
         || name_neq (lastSchema st) (ColumnsQuery.schema r)
         || name_neq (lastName st) (ColumnsQuery.name r)
      then
        let st := emit st in
        mkLoop (firstTime st) (lastCatalog st) (lastSchema st) (lastName st)
          (tables st) []
      else st in
    mkLoop (firstTime st) (ColumnsQuery.catalog r) (ColumnsQuery.schema r)
      (ColumnsQuery.name r) (tables st) (currentCols st ++ [columnOf r]).

(** The loop itself: a failed [rows.Scan] returns its error at once. *)
Fixpoint loopRows (st : loopState) (rs : list (gosql.error + ColumnsQuery.row))
  : gosql.error + loopState :=
  match rs with
  | [] => inr st
  | inl err :: _ => inl err
  | inr r :: rs => loopRows (loopBody st r) rs
  end.

(** The code after the loop: the final pending group. *)
Definition loopFlush (st : loopState) : loopState :=
  if firstTime st then st else emit st.

(** [extractTables]: the pair (tables, err) that the Go function returns;
    a nil slice is the empty list. *)
Definition extractTables (db : DB) : list tableRef * option gosql.error :=
  match QueryColumns db with
  | inl err => ([], Some err)
  | inr rows =>
      match loopRows loopInit (gosql.scans rows) with
      | inl err => ([], Some err)
      | inr st => (tables (loopFlush st), gosql.Err rows)
      end
  end.

End Tables.

Arguments tableRef : clear implicits.
Arguments loopState : clear implicits.

(** ** [extractIndexes] *)

#[global] Instance CreateIndex_inhabited : Inhabited tree.CreateIndex.t :=
  populate (tree.CreateIndex.mk "" (tree.NewTableName "" "") [] []).

(** One iteration of the inner [for rows.Next()] loop for table [t], after a
    successful [rows.Scan].  [indexes] holds pointers: mutating [create]
    mutates the entry stored under [idx]. *)
Definition indexBody (t : tree.TableName)
    (indexes : gmap tree.Name tree.CreateIndex.t) (r : IndexesQuery.row)
  : gmap tree.Name tree.CreateIndex.t :=
  let indexes :=
    match indexes !! IndexesQuery.idx r with
    | Some _ => indexes
    | None =>
        <[IndexesQuery.idx r :=
            tree.CreateIndex.mk (IndexesQuery.idx r) t [] []]> indexes
    end in
  let create := indexes !!! IndexesQuery.idx r in
  let create :=
    if IndexesQuery.storing r
    then tree.CreateIndex.mk (tree.CreateIndex.Name create)
           (tree.CreateIndex.Table create) (tree.CreateIndex.Columns create)
           (tree.CreateIndex.Storing create ++ [IndexesQuery.col r])
    else
      let dir := tree.Ascending in
      let dir := if negb (IndexesQuery.ascending r) then tree.Descending else dir in
      tree.CreateIndex.mk (tree.CreateIndex.Name create)
        (tree.CreateIndex.Table create)
        (tree.CreateIndex.Columns create
           ++ [tree.IndexElem.mk (IndexesQuery.col r) dir])
        (tree.CreateIndex.Storing create) in
  <[IndexesQuery.idx r := create]> indexes.

Fixpoint indexRows (t : tree.TableName)
    (indexes : gmap tree.Name tree.CreateIndex.t)
    (rs : list (gosql.error + IndexesQuery.row))
  : gosql.error + gmap tree.Name tree.CreateIndex.t :=
  match rs with
  | [] => inr indexes
  | inl err :: _ => inl err
  | inr r :: rs => indexRows t (indexBody t indexes r) rs
  end.

(** The body of the outer loop for one table, up to the value stored in
    [ret]. *)
Definition tableIndexes (db : DB) (t : tree.TableName)
  : gosql.error + gmap tree.Name tree.CreateIndex.t :=
  match QueryIndexes db t with
  | inl err => inl err
  | inr rows =>
      match indexRows t ∅ (gosql.scans rows) with
      | inl err => inl err
      | inr indexes =>
          match gosql.Err rows with
          | Some err => inl err
          | None => inr indexes
          end
      end
  end.

Section Indexes.
Context {ColType : Type}.

(** [for _, t := range tables]; every error path returns a nil map. *)
Fixpoint extractIndexesLoop (db : DB)
    (ret : gmap tree.TableName (gmap tree.Name tree.CreateIndex.t))
    (ts : list (tableRef ColType)) {struct ts}
  : gmap tree.TableName (gmap tree.Name tree.CreateIndex.t)
    * option gosql.error :=
  match ts with
  | [] => (ret, None)
  | t :: ts' =>
      match tableIndexes db (TableName t) with
      | inl err => (∅, Some err)
      | inr indexes =>
          extractIndexesLoop db (<[TableName t := indexes]> ret) ts'
      end
  end.

Definition extractIndexes (db : DB) (tables : list (tableRef ColType)) :=
  extractIndexesLoop db ∅ tables.
End Indexes.

(** ** [math/rand] *)
Module rand.
(** [*rand.Rand]: a sequence of raw draws and the number already used. *)
Record Rand := mk { source : nat -> nat; pos : nat }.

(** [r.Intn(n)] for [n > 0]: a value below [n], and the advanced
    generator.  Go panics when [n <= 0]; callers are modelled with that
    case made explicit. *)
Definition Intn (r : Rand) (n : nat) : nat * Rand :=
  (source r (pos r) mod n, mk (source r) (S (pos r))).
End rand.

(** ** The [Smither] fields that [schema.go] uses *)
Module Smither.
Section Fields.
Context {ColType : Type}.
(** [lock] is represented by the events below, a nil [db] by [None]. *)
Record t := mk {
  rnd : rand.Rand;
  db : option DB;
  tables : list (tableRef ColType);
  indexes : gmap tree.TableName (gmap tree.Name tree.CreateIndex.t)
}.
End Fields.
Arguments t : clear implicits.
End Smither.

(** What a method does to [s.lock] and [s.rnd], in program order. *)
Inductive event :=
| Lock | Unlock | RLock | RUnlock
| RndIntn (n : nat).

Section Methods.
Context {ColType : Type}.
Variable typeFromName : string -> ColType.

(** A method body: it may panic ([None]), it updates the receiver, and it
    leaves a trace of lock and randomness events. *)
Definition M (A : Type) : Type :=
  Smither.t ColType -> option A * Smither.t ColType * list event.

Definition ret {A} (a : A) : M A := fun s => (Some a, s, []).

Definition bind {A B} (m : M A) (f : A -> M B) : M B :=
  fun s =>
    let '(oa, s1, tr1) := m s in
    match oa with
    | None => (None, s1, tr1)
    | Some a => let '(ob, s2, tr2) := f a s1 in (ob, s2, tr1 ++ tr2)
    end.

Definition panic {A} : M A := fun s => (None, s, []).
Definition get : M (Smither.t ColType) := fun s => (Some s, s, []).
Definition put (s' : Smither.t ColType) : M unit := fun _ => (Some tt, s', []).
Definition emitEvent (e : event) : M unit := fun s => (Some tt, s, [e]).

(** [defer unlock] around the rest of the body: the unlock runs when the
    body returns and also when it panics. *)
Definition defer {A} (unlock : event) (body : M A) : M A :=
  fun s => let '(oa, s1, tr) := body s in (oa, s1, tr ++ [unlock]).

(** [s.rnd.Intn(n)]. *)
Definition rndIntn (n : nat) : M nat :=
  fun s =>
    if Nat.eqb n 0 then (None, s, [RndIntn n])
    else
      let '(v, r) := rand.Intn (Smither.rnd s) n in
      (Some v,
       Smither.mk r (Smither.db s) (Smither.tables s) (Smither.indexes s),
       [RndIntn n]).
End Methods.

Notation "'do' x <- m ; k" := (bind m (fun x => k))
  (at level 10, x name, m at level 100, k at level 200, only parsing).
Notation "'do' ' p <- m ; k" := (bind m (fun x => match x with p => k end))
  (at level 10, p pattern, m at level 100, k at level 200, only parsing).
Notation "'exec' m ; k" := (bind m (fun _ => k))
  (at level 10, m at level 100, k at level 200, only parsing).

Section Methods2.
Context {ColType : Type}.
Variable typeFromName : string -> ColType.

(** [ReloadSchemas] loads tables from the database.  The result is the Go
    [error] ([None] is nil). *)
Definition ReloadSchemas : M (ColType:=ColType) (option gosql.error) :=
  do s <- get ;
  match Smither.db s with
  | None => ret None
  | Some db =>
      exec emitEvent Lock ;
      defer Unlock (
        let '(tables, err) := extractTables typeFromName db in
        exec put (Smither.mk (Smither.rnd s) (Smither.db s) tables (Smither.indexes s)) ;
        match err with
        | Some err => ret (Some err)
        | None =>
            do s <- get ;
            let '(indexes, err) := extractIndexes db (Smither.tables s) in
            exec put (Smither.mk (Smither.rnd s) (Smither.db s) (Smither.tables s) indexes) ;
            ret err
        end)
  end.

(** [getRandTable]: a nil [*tableRef] is [None]. *)
Definition getRandTable : M (ColType:=ColType) (option (tableRef ColType) * bool) :=
  exec emitEvent RLock ;
  defer RUnlock (
    do s <- get ;
    if Nat.eqb (length (Smither.tables s)) 0 then ret (None, false)
    else
      do i <- rndIntn (length (Smither.tables s)) ;
      match Smither.tables s !! i with
      | Some t => ret (Some t, true)
      | None => panic
      end).

(** [getIndexes]: reading a missing key of a Go map gives the nil map. *)
Definition getIndexes (table : tree.TableName)
  : M (ColType:=ColType) (gmap tree.Name tree.CreateIndex.t) :=
  exec emitEvent RLock ;
  defer RUnlock (
    do s <- get ;
    ret (default ∅ (Smither.indexes s !! table))).

(** [getRandTableIndex].  [for n := range indexes] visits the keys in an
    order Go leaves unspecified; the model takes the order of
    [map_to_list]. *)
Definition getRandTableIndex (table : tree.TableName)
  : M (ColType:=ColType)
      (option tree.TableIndexName.t * option tree.CreateIndex.t * bool) :=
  do indexes <- getIndexes table ;
  if Nat.eqb (size indexes) 0 then ret (None, None, false)
  else
    let names := (map_to_list indexes).*1 in
    do i <- rndIntn (length names) ;
    match names !! i with
    | None => panic
    | Some n =>
        match indexes !! n with
        | None => panic
        | Some idx =>
            ret (Some (tree.TableIndexName.mk table (tree.CreateIndex.Name idx)),
                 Some idx, true)
        end
    end.

(** [getRandIndex]. *)
Definition getRandIndex
  : M (ColType:=ColType)
      (option tree.TableIndexName.t * option tree.CreateIndex.t * bool) :=
  do ' (tableRef, ok) <- getRandTable ;
  if negb ok then ret (None, None, false)
  else
    match tableRef with
    | None => panic
    | Some t => getRandTableIndex (TableName t)
    end.
End Methods2.

(** ** The static catalogs *)

(** [strings.HasPrefix] and [strings.Contains] on Go strings. *)
Module gostrings.
Fixpoint HasPrefix (s prefix : string) : bool :=
  match prefix, s with
  | EmptyString, _ => true
  | String _ _, EmptyString => false
  | String a prefix, String b s => Ascii.eqb a b && HasPrefix s prefix
  end.

Fixpoint Contains (s substr : string) : bool :=
  HasPrefix s substr ||
  match s with
  | EmptyString => false
  | String _ s => Contains s substr
  end.
End gostrings.



Record operator := mkOperator {
  BinOp : tree.BinOp.t;
  Operator : tree.BinaryOperator
}.

(** [m[k] = append(m[k], x)] on a Go map of slices. *)
Definition appendAt {K} `{Countable K} {A} (m : gmap K (list A)) (k : K) (x : A)
  : gmap K (list A) :=
  <[k := default [] (m !! k) ++ [x]]> m.

(** The initializer of [operators].  [BinOps] is [tree.BinOps] listed in the
    order in which [range] visits it; every overload of the registry is a
    [*tree.BinOp]. *)
Definition operators
    (BinOps : list (tree.BinaryOperator * list tree.BinOp.t))
  : gmap N (list operator) :=
  fold_left
    (fun m '(BinaryOperator, overload) =>
       fold_left
         (fun m bo =>
            appendAt m (types.Oid (tree.BinOp.ReturnType bo))
              (mkOperator bo BinaryOperator))
         overload m)
    BinOps ∅.

Record function := mkFunction {
  def : tree.FunctionDefinition.t;
  overload : tree.Overload.t
}.

Section Functions.
(** [types.AnyNonArray], declared in package [types]. *)
Variable AnyNonArray : list types.T.

(** The [found] loop of [functions]. *)
Definition foundNonArray (typ : types.T) : bool :=
  fold_left
    (fun found nonArrayTyp =>
       if N.eqb (types.SemanticType typ) (types.SemanticType nonArrayTyp)
       then true else found)
    AnyNonArray false.

(** One iteration of [for _, ov := range def.Definition]. *)
Definition functionsOverload (d : tree.FunctionDefinition.t)
    (m : gmap tree.FunctionClass (gmap N (list function)))
    (ov : tree.Overload.t)
  : gmap tree.FunctionClass (gmap N (list function)) :=
  if gostrings.Contains (tree.Overload.Info ov) "Not usable" then m
  else
    let typ := tree.Overload.FixedReturnType ov in
    let found := foundNonArray typ in
    if negb found then m
    else
      <[tree.FunctionDefinition.Class d :=
          appendAt (default ∅ (m !! tree.FunctionDefinition.Class d))
            (types.Oid typ) (mkFunction d ov)]> m.

(** One iteration of [for _, def := range tree.FunDefs]. *)
Definition functionsDef
    (m : gmap tree.FunctionClass (gmap N (list function)))
    (d : tree.FunctionDefinition.t)
  : gmap tree.FunctionClass (gmap N (list function)) :=
  if String.eqb (tree.FunctionDefinition.Name d) "pg_sleep" then m
  else if gostrings.Contains (tree.FunctionDefinition.Name d)
            "crdb_internal.force_" then m
  else
    let m :=
      match m !! tree.FunctionDefinition.Class d with
      | Some _ => m
      | None => <[tree.FunctionDefinition.Class d := ∅]> m
      end in
    if String.eqb (tree.FunctionDefinition.Category d) "Compatibility" then m
    else if tree.FunctionDefinition.Private d then m
    else fold_left (functionsOverload d) (tree.FunctionDefinition.Definition_ d) m.

(** The initializer of [functions].  [FunDefs] is [tree.FunDefs] listed in
    the order in which [range] visits it. *)
Definition functions (FunDefs : list tree.FunctionDefinition.t)
  : gmap tree.FunctionClass (gmap N (list function)) :=
  fold_left functionsDef FunDefs ∅.
End Functions.

(** The slice stored under a key of a catalog; a missing key reads as the
    nil slice. *)
Definition operatorsAt (m : gmap N (list operator)) (o : N) : list operator :=
  default [] (m !! o).

Definition functionsAt (m : gmap tree.FunctionClass (gmap N (list function)))
    (c : tree.FunctionClass) (o : N) : list function :=
  default [] (default ∅ (m !! c) !! o).

(** ** Reference descriptions used to state the grouping properties *)

(** The grouping key of a column row. *)
Definition rowKey (r : ColumnsQuery.row) : tree.Name * tree.Name * tree.Name :=
  (ColumnsQuery.catalog r, ColumnsQuery.schema r, ColumnsQuery.name r).

(** The condition of the boundary test in [extractTables]. *)
Definition keyDiffers (k k' : tree.Name * tree.Name * tree.Name) : bool :=
  name_neq k.1.1 k'.1.1 || name_neq k.1.2 k'.1.2 || name_neq k.2 k'.2.

(** Put a pending group in front of a list of runs, merging it with the
    first run when the keys agree. *)
Definition attach (k : tree.Name * tree.Name * tree.Name)
    (pending : list ColumnsQuery.row)
    (rest : list (tree.Name * tree.Name * tree.Name * list ColumnsQuery.row))
  : list (tree.Name * tree.Name * tree.Name * list ColumnsQuery.row) :=
  match rest with
  | [] => [(k, pending)]
  | (k', g) :: rest' =>
      if keyDiffers k k' then (k, pending) :: (k', g) :: rest'
      else (k, pending ++ g) :: rest'
  end.

(** The maximal contiguous runs of rows with one key, in input order. *)
Fixpoint runs (rs : list ColumnsQuery.row)
  : list (tree.Name * tree.Name * tree.Name * list ColumnsQuery.row) :=
  match rs with
  | [] => []
  | r :: rs => attach (rowKey r) [r] (runs rs)
  end.

(** The rows that are not hidden. *)
Definition retained (rs : list ColumnsQuery.row) : list ColumnsQuery.row :=
  List.filter (fun r => negb (ColumnsQuery.hidden r)) rs.

(** A run belongs to the target schema. *)
Definition publicRun
    (run : tree.Name * tree.Name * tree.Name * list ColumnsQuery.row) : bool :=
  String.eqb run.1.1.2 "public".

(** A successful query whose rows all decode. *)
Definition decoded {A} (rows : list A) (err : option gosql.error)
  : gosql.QueryResult A :=
  inr (gosql.mkRows (map inr rows) err).

(** A scanned item that is not a hidden row. *)
Definition visibleScan (x : gosql.error + ColumnsQuery.row) : bool :=
  match x with
  | inl _ => true
  | inr r => negb (ColumnsQuery.hidden r)
  end.

(** The same database with hidden rows taken out of the column stream. *)
Definition dropHidden (db : DB) : DB :=
  mkDB
    match QueryColumns db with
    | inl err => inl err
    | inr rows =>
        inr (gosql.mkRows (List.filter visibleScan (gosql.scans rows))
               (gosql.Err rows))
    end
    (QueryIndexes db).

Section TablesSpec.
Context {ColType : Type}.
Variable typeFromName : string -> ColType.

(** The [tableRef] that a run stands for. *)
Definition tableOfRun
    (run : tree.Name * tree.Name * tree.Name * list ColumnsQuery.row)
  : tableRef ColType :=
  mkTableRef (tree.NewTableName run.1.1.1 run.1.2)
    (map (columnOf typeFromName) run.2).

(** Group the retained rows into runs and keep the runs of the target
    schema. *)
Definition grouped (rs : list ColumnsQuery.row) : list (tableRef ColType) :=
  map tableOfRun (List.filter publicRun (runs (retained rs))).

(** The loop state while a group with key [k] and rows [pending] is being
    collected, [done] being the tables emitted so far. *)
Definition pendingState (k : tree.Name * tree.Name * tree.Name)
    (done : list (tableRef ColType)) (pending : list ColumnsQuery.row)
  : loopState ColType :=
  mkLoop false k.1.1 k.1.2 k.2 done (map (columnOf typeFromName) pending).
End TablesSpec.

(** ** Reference descriptions used to state the index properties *)

(** The rows of one index, in arrival order. *)
Definition rowsOf (i : tree.Name) (rs : list IndexesQuery.row)
  : list IndexesQuery.row :=
  List.filter (fun r => String.eqb (IndexesQuery.idx r) i) rs.

(** The key element that a non-storing row stands for. *)
Definition keyElem (r : IndexesQuery.row) : tree.IndexElem.t :=
  tree.IndexElem.mk (IndexesQuery.col r)
    (if IndexesQuery.ascending r then tree.Ascending else tree.Descending).

(** The index definition that the rows of index [i] of table [t] describe,
    if there is such a row. *)
Definition assembled (t : tree.TableName) (rs : list IndexesQuery.row)
    (i : tree.Name) : option tree.CreateIndex.t :=
  match rowsOf i rs with
  | [] => None
  | _ =>
      Some (tree.CreateIndex.mk i t
              (map keyElem
                 (List.filter (fun r => negb (IndexesQuery.storing r)) (rowsOf i rs)))
              (map IndexesQuery.col
                 (List.filter IndexesQuery.storing (rowsOf i rs))))
  end.

(** ** Lock discipline of a trace *)

(** Every [RndIntn] event of the trace happens while the lock is held,
    [held] being the number of holds at the start of the trace. *)
Fixpoint guardedFrom (held : nat) (tr : list event) : bool :=
  match tr with
  | [] => true
  | Lock :: tr | RLock :: tr => guardedFrom (S held) tr
  | Unlock :: tr | RUnlock :: tr => guardedFrom (pred held) tr
  | RndIntn _ :: tr => Nat.ltb 0 held && guardedFrom held tr
  end.

Definition guarded (tr : list event) : bool := guardedFrom 0 tr.

(** The parts of the triple that a method call yields. *)
Definition result {S A} (x : option A * S * list event) : option A := x.1.1.
Definition after {S A} (x : option A * S * list event) : S := x.1.2.
Definition trace {S A} (x : option A * S * list event) : list event := x.2.

(** The receiver after one [s.rnd.Intn(n)]. *)
Definition drawn {ColType} (s : Smither.t ColType) (n : nat) : Smither.t ColType :=
  Smither.mk (rand.Intn (Smither.rnd s) n).2 (Smither.db s) (Smither.tables s)
    (Smither.indexes s).

(** The value that [s.rnd.Intn(n)] returns. *)
Definition draw {ColType} (s : Smither.t ColType) (n : nat) : nat :=
  (rand.Intn (Smither.rnd s) n).1.

(** The outcome [nil, nil, false] of the index picks. *)
Definition notFound
  : option tree.TableIndexName.t * option tree.CreateIndex.t * bool :=
  (None, None, false).

(** ** Reference descriptions used to state the catalog properties *)

(** Every overload of every operator of the registry, paired with its
    operator, in registry order. *)
Definition allOverloads
    (BinOps : list (tree.BinaryOperator * list tree.BinOp.t)) : list operator :=
  flat_map (fun '(BinaryOperator, overload) =>
              map (fun bo => mkOperator bo BinaryOperator) overload)
    BinOps.

(** The return type identifier of a catalog entry. *)
Definition operatorOid (e : operator) : N :=
  types.Oid (tree.BinOp.ReturnType (BinOp e)).

(** All entries of a catalog keyed by return type, whatever their key. *)
Definition catalogEntries {A} (m : gmap N (list A)) : list A :=
  concat (map snd (map_to_list m)).

(** Rules 1 to 3 of the function filter, on a definition. *)
Definition defAllowed (d : tree.FunctionDefinition.t) : bool :=
  negb (String.eqb (tree.FunctionDefinition.Name d) "pg_sleep")
  && negb (gostrings.Contains (tree.FunctionDefinition.Name d) "crdb_internal.force_")
  && negb (String.eqb (tree.FunctionDefinition.Category d) "Compatibility")
  && negb (tree.FunctionDefinition.Private d).

(** Rules 4 and 5 of the function filter, on an overload. *)
Definition overloadAllowed (AnyNonArray : list types.T) (ov : tree.Overload.t)
  : bool :=
  negb (gostrings.Contains (tree.Overload.Info ov) "Not usable")
  && existsb
       (fun nonArrayTyp =>
          N.eqb (types.SemanticType (tree.Overload.FixedReturnType ov))
            (types.SemanticType nonArrayTyp))
       AnyNonArray.

(** The overloads of the registry that pass the filter, in registry order. *)
Definition eligible (AnyNonArray : list types.T)
    (FunDefs : list tree.FunctionDefinition.t) : list function :=
  flat_map
    (fun d =>
       if defAllowed d
       then map (mkFunction d)
              (List.filter (overloadAllowed AnyNonArray)
                 (tree.FunctionDefinition.Definition_ d))
       else [])
    FunDefs.

(** The key of a function catalog entry. *)
Definition functionKey (f : function) : tree.FunctionClass * N :=
  (tree.FunctionDefinition.Class (def f),
   types.Oid (tree.Overload.FixedReturnType (overload f))).

(** ** Further operations and descriptions *)

(** [tableRefs.Pop]: the first table and the rest; indexing an empty slice
    panics ([None]). *)
Definition Pop {ColType} (t : list (tableRef ColType))
  : option (tableRef ColType * list (tableRef ColType)) :=
  match t with
  | [] => None
  | first :: rest => Some (first, rest)
  end.

(** A row that is not hidden and belongs to the target schema. *)
Definition targetRow (r : ColumnsQuery.row) : bool :=
  negb (ColumnsQuery.hidden r) && String.eqb (ColumnsQuery.schema r) "public".

(** The table name that [emit] builds for a grouping key. *)
Definition nameOfKey (k : tree.Name * tree.Name * tree.Name) : tree.TableName :=
  tree.NewTableName k.1.1 k.2.

(** The receiver with another generator. *)
Definition withRnd {ColType} (s : Smither.t ColType) (r : rand.Rand)
  : Smither.t ColType :=
  Smither.mk r (Smither.db s) (Smither.tables s) (Smither.indexes s).

(** [s.lock] as one goroutine sees it: whether it holds the write lock and
    how many read locks it holds. *)
Record lockState := mkLock { writer : bool; readers : nat }.

Definition lockFree : lockState := mkLock false 0.

(** One lock event.  [None] stands for what [sync.RWMutex] forbids or never
    returns from within one goroutine: locking while the goroutine holds the
    lock in either mode, and unlocking a mode that is not held. *)
Definition lockStep (l : lockState) (e : event) : option lockState :=
  match e with
  | Lock =>
      if writer l || Nat.ltb 0 (readers l) then None else Some (mkLock true 0)
  | Unlock => if writer l then Some (mkLock false (readers l)) else None
  | RLock =>
      if writer l || Nat.ltb 0 (readers l) then None else Some (mkLock false 1)
  | RUnlock =>
      if Nat.ltb 0 (readers l) then Some (mkLock (writer l) (pred (readers l)))
      else None
  | RndIntn _ => Some l
  end.

Fixpoint lockRun (l : lockState) (tr : list event) : option lockState :=
  match tr with
  | [] => Some l
  | e :: tr =>
      match lockStep l e with
      | None => None
      | Some l' => lockRun l' tr
      end
  end.

(** The name test of [functions], made before the class key is created. *)
Definition nameAllowed (d : tree.FunctionDefinition.t) : bool :=
  negb (String.eqb (tree.FunctionDefinition.Name d) "pg_sleep")
  && negb (gostrings.Contains (tree.FunctionDefinition.Name d) "crdb_internal.force_").

(** No slice stored in the map is empty. *)
Definition slicesNonEmpty (m : gmap tree.FunctionClass (gmap N (list function)))
  : Prop :=
  forall c inner o l, m !! c = Some inner -> inner !! o = Some l -> l <> [].

(** ** Concrete inputs used by the examples below *)
Module Fixtures.

(** Type names are kept as they are. *)
Definition typeFromName (n : string) : string := n.

(** A database in which no table has an index. *)
Definition noIndexes (t : tree.TableName)
  : gosql.QueryResult IndexesQuery.row := decoded [] None.

Definition visibleRow (table column : string) : ColumnsQuery.row :=
  ColumnsQuery.mk "db" "public" table column "INT8" false false false.

Definition hiddenRow (table column : string) : ColumnsQuery.row :=
  ColumnsQuery.mk "db" "public" table column "INT8" false false true.

(** Table [t1] has only the hidden column [rowid]; table [t2] has the
    visible column [b]. *)
Definition hiddenThenVisible : list ColumnsQuery.row :=
  [hiddenRow "t1" "rowid"; visibleRow "t2" "b"].

(** Table [t] of catalog [db], with one column. *)
Definition oneTable : tableRef string :=
  mkTableRef (tree.NewTableName "db" "t")
    [tree.ColumnTableDef.mk "a" "INT8" tree.NotNull false].

(** The index rows of the scenario of the specification. *)
Definition idx1Rows : list IndexesQuery.row :=
  [IndexesQuery.mk "idx1" "a" false true; IndexesQuery.mk "idx1" "b" true false].

(** Column [a] is listed both as a storing and as a key column of [idx1]. *)
Definition overlappingRows : list IndexesQuery.row :=
  [IndexesQuery.mk "idx1" "a" true true; IndexesQuery.mk "idx1" "a" false true].

(** A generator whose raw draws are all zero. *)
Definition zeroRand : rand.Rand := rand.mk (fun _ => 0) 0.

(** Tables [t1] and [t2] as the column query reports them. *)
Definition twoTableRows : list ColumnsQuery.row :=
  [visibleRow "t1" "a"; visibleRow "t2" "b"].

Definition t1 : tree.TableName := tree.NewTableName "db" "t1".
Definition t2 : tree.TableName := tree.NewTableName "db" "t2".

(** The index query works for [t1] and fails for every other table. *)
Definition secondIndexQueryFails (t : tree.TableName)
  : gosql.QueryResult IndexesQuery.row :=
  if decide (t = t1) then decoded idx1Rows None else inl "index query failed".

Definition idx1 : tree.CreateIndex.t :=
  tree.CreateIndex.mk "idx1" (tree.NewTableName "db" "t")
    [tree.IndexElem.mk "a" tree.Ascending] ["b"].

(** A cache that knows table [t] and its index [idx1], connected to a
    database whose second index query fails. *)
Definition loadedCache : Smither.t string :=
  Smither.mk zeroRand
    (Some (mkDB (decoded twoTableRows None) secondIndexQueryFails))
    [oneTable]
    {[ tree.NewTableName "db" "t" := {[ "idx1" := idx1 ]} ]}.

(** A cache with no table, and one with table [t] and no index. *)
Definition emptyCache : Smither.t string :=
  Smither.mk zeroRand None [] ∅.

Definition cacheWithoutIndexes : Smither.t string :=
  Smither.mk zeroRand None [oneTable] ∅.

(** A cache with table [t] and its index [idx1], without connection. *)
Definition cacheWithIndex : Smither.t string :=
  Smither.mk zeroRand None [oneTable]
    {[ tree.NewTableName "db" "t" := {[ "idx1" := idx1 ]} ]}.

(** The database of [loadedCache]. *)
Definition failingDB : DB :=
  mkDB (decoded twoTableRows None) secondIndexQueryFails.

(** A database with table [t] and no index rows. *)
Definition plainDB : DB := mkDB (decoded [] None) noIndexes.

(** Table [t1] of the target schema, then table [t2] of another schema. *)
Definition mixedSchemaRows : list ColumnsQuery.row :=
  [visibleRow "t1" "a";
   ColumnsQuery.mk "db" "pg_catalog" "t2" "b" "INT8" false false false].

(** The first scenario of the specification. *)
Definition scenarioRows : list ColumnsQuery.row :=
  [ColumnsQuery.mk "db" "public" "t1" "col_a" "INT4" false true false;
   ColumnsQuery.mk "db" "public" "t1" "col_b" "STRING" false false false;
   ColumnsQuery.mk "db" "public" "t2" "col_c" "BOOL" false false false].

(** Table [t2] has hidden rows only and stands between [t1] and [t3]. *)
Definition beforeRun : list ColumnsQuery.row := [visibleRow "t1" "a"].
Definition hiddenRun : list ColumnsQuery.row :=
  [hiddenRow "t2" "rowid"; hiddenRow "t2" "x"].
Definition afterRun : list ColumnsQuery.row := [visibleRow "t3" "c"].

(** A small registry of types, operators and functions. *)
Definition intT : types.T := types.mk 1 20.
Definition floatT : types.T := types.mk 2 701.
Definition stringT : types.T := types.mk 6 25.
Definition intArrayT : types.T := types.mk 15 1016.

Definition AnyNonArray : list types.T := [intT; floatT; stringT].

Definition plusInt : tree.BinOp.t := tree.BinOp.mk intT intT intT.
Definition plusFloat : tree.BinOp.t := tree.BinOp.mk floatT floatT floatT.
Definition concatString : tree.BinOp.t := tree.BinOp.mk stringT stringT stringT.

Definition BinOps : list (tree.BinaryOperator * list tree.BinOp.t) :=
  [(3%N, [plusInt; plusFloat]); (11%N, [concatString])].

Definition lengthOverload : tree.Overload.t :=
  tree.Overload.mk "Calculates the number of characters in val." intT.

Definition lengthDef : tree.FunctionDefinition.t :=
  tree.FunctionDefinition.mk "length" [lengthOverload] 0%N "String and byte" false.

Definition sleepDef : tree.FunctionDefinition.t :=
  tree.FunctionDefinition.mk "pg_sleep"
    [tree.Overload.mk "Sleeps." intT] 0%N "System info" false.

Definition FunDefs : list tree.FunctionDefinition.t := [sleepDef; lengthDef].

(** The index query works for every table; only [t1] has index rows. *)
Definition onlyT1HasIndexes (t : tree.TableName)
  : gosql.QueryResult IndexesQuery.row :=
  if decide (t = t1) then decoded idx1Rows None else decoded [] None.

(** A database on which a reload succeeds, and a cache connected to it. *)
Definition workingDB : DB := mkDB (decoded twoTableRows None) onlyT1HasIndexes.

Definition freshCache : Smither.t string :=
  Smither.mk zeroRand (Some workingDB) [] ∅.

(** A cache connected to [failingDB] that holds nothing yet. *)
Definition freshFailingCache : Smither.t string :=
  Smither.mk zeroRand (Some failingDB) [] ∅.

(** Tables [t1] and [t2] as [extractTables] builds them. *)
Definition tableT1 : tableRef string :=
  mkTableRef t1 [tree.ColumnTableDef.mk "a" "INT8" tree.NotNull false].
Definition tableT2 : tableRef string :=
  mkTableRef t2 [tree.ColumnTableDef.mk "b" "INT8" tree.NotNull false].

(** Iteration over the column rows ends with an error after two rows. *)
Definition interruptedDB : DB :=
  mkDB (decoded twoTableRows (Some "iteration failed")) noIndexes.

Definition interruptedCache : Smither.t string :=
  Smither.mk zeroRand (Some interruptedDB) [oneTable]
    {[ tree.NewTableName "db" "t" := {[ "idx1" := idx1 ]} ]}.

(** The rows of [idx1] with a row of [idx2] between them. *)
Definition interleavedRows : list IndexesQuery.row :=
  [IndexesQuery.mk "idx1" "a" false true;
   IndexesQuery.mk "idx2" "c" false false;
   IndexesQuery.mk "idx1" "b" true false].

(** The registries visited in another order. *)
Definition BinOpsSwapped : list (tree.BinaryOperator * list tree.BinOp.t) :=
  [(11%N, [concatString]); (3%N, [plusInt; plusFloat])].

Definition FunDefsSwapped : list tree.FunctionDefinition.t := [lengthDef; sleepDef].

(** A private definition of class 1: its class becomes a key, no entry is
    stored. *)
Definition privateDef : tree.FunctionDefinition.t :=
  tree.FunctionDefinition.mk "crdb_internal.hidden"
    [tree.Overload.mk "Internal." intT] 1%N "System info" true.

End Fixtures.

(** * Properties *)

(** ** Row grouping *)

Lemma name_neq_false (a b : tree.Name) : name_neq a b = false <-> a = b.
Proof.
  unfold name_neq. rewrite negb_false_iff. apply String.eqb_eq.
Qed.

Lemma name_neq_refl (a : tree.Name) : name_neq a a = false.
Proof. by apply name_neq_false. Qed.

Lemma keyDiffers_false k k' : keyDiffers k k' = false <-> k = k'.
Proof.
  destruct k as [[c s] n], k' as [[c' s'] n']. unfold keyDiffers; simpl.
  rewrite !orb_false_iff, !name_neq_false. split.
  - intros [[-> ->] ->]. reflexivity.
  - intros [= -> -> ->]. auto.
Qed.

Lemma keyDiffers_refl k : keyDiffers k k = false.
Proof. by apply keyDiffers_false. Qed.

Lemma attach_attach k p r X :
  attach k p (attach k [r] X) = attach k (p ++ [r]) X.
Proof.
  destruct X as [|[k' g] rest]; simpl.
  - by rewrite keyDiffers_refl.
  - destruct (keyDiffers k k') eqn:E; simpl.
    + by rewrite keyDiffers_refl.
    + by rewrite keyDiffers_refl, <- app_assoc.
Qed.

Lemma attach_differs k p k' r X :
  keyDiffers k k' = true ->
  attach k p (attach k' [r] X) = (k, p) :: attach k' [r] X.
Proof.
  intros E. destruct X as [|[k'' g] rest]; simpl.
  - by rewrite E.
  - destruct (keyDiffers k' k''); simpl; by rewrite E.
Qed.

(** [runs] is a partition of its input into non-empty groups of one key
    each, and neighbouring groups have different keys. *)
Lemma runs_concat rs : concat (map snd (runs rs)) = rs.
Proof.
  induction rs as [|r rs IH]; [done|]. simpl.
  destruct (runs rs) as [|[k g] rest]; simpl in *.
  - by rewrite <- IH.
  - destruct (keyDiffers (rowKey r) k); simpl; by rewrite <- IH.
Qed.

Lemma runs_groups rs run :
  run ∈ runs rs -> run.2 <> [] /\ Forall (fun r => rowKey r = run.1) run.2.
Proof.
  revert run. induction rs as [|r rs IH]; intros run; simpl.
  - by intros ?%elem_of_nil.
  - destruct (runs rs) as [|[k g] rest]; simpl.
    + intros ->%list_elem_of_singleton. simpl. split; [done|]. by repeat constructor.
    + destruct (keyDiffers (rowKey r) k) eqn:E.
      * intros [->|H]%elem_of_cons; [|by apply IH].
        simpl. split; [done|]. by repeat constructor.
      * apply keyDiffers_false in E.
        intros [->|H]%elem_of_cons.
        -- simpl. split; [done|]. constructor; [done|].
           rewrite E. apply (IH (k, g)). by left.
        -- apply IH. by right.
Qed.

Lemma runs_maximal rs i k g k' g' :
  runs rs !! i = Some (k, g) -> runs rs !! S i = Some (k', g') -> k <> k'.
Proof.
  revert i k g k' g'. induction rs as [|r rs IH]; intros i k g k' g'; [done|].
  simpl. destruct (runs rs) as [|[k0 g0] rest] eqn:R; simpl.
  - by destruct i.
  - destruct (keyDiffers (rowKey r) k0) eqn:E.
    + destruct i as [|i]; simpl.
      * intros [= <- <-] [= <- <-] Heq. by rewrite Heq, keyDiffers_refl in E.
      * apply IH.
    + destruct i as [|i]; simpl.
      * intros [= <- <-] H.
        apply (IH 0 k0 g0 k' g') in H; [|done].
        apply keyDiffers_false in E. by rewrite E.
      * intros H1 H2. apply (IH (S i) k g k' g'); done.
Qed.

Section TablesProofs.
Context {ColType : Type}.
Variable typeFromName : string -> ColType.

Lemma loopRows_decoded (st : loopState ColType) rs :
  loopRows typeFromName st (map inr rs)
  = inr (fold_left (loopBody typeFromName) rs st).
Proof.
  revert st. induction rs as [|r rs IH]; intros st; simpl; [done|]. apply IH.
Qed.

Lemma loopRows_inr (st st' : loopState ColType) scans :
  loopRows typeFromName st scans = inr st' ->
  exists rs, scans = map inr rs /\ st' = fold_left (loopBody typeFromName) rs st.
Proof.
  revert st. induction scans as [|[e|r] scans IH]; intros st; simpl.
  - intros [= <-]. by exists [].
  - discriminate.
  - intros (rs & -> & ->)%IH. by exists (r :: rs).
Qed.

Lemma loopBody_hidden (st : loopState ColType) r :
  ColumnsQuery.hidden r = true -> loopBody typeFromName st r = st.
Proof. intros H. unfold loopBody. by rewrite H. Qed.

Lemma loop_retained rs (st : loopState ColType) :
  fold_left (loopBody typeFromName) rs st
  = fold_left (loopBody typeFromName) (retained rs) st.
Proof.
  revert st. induction rs as [|r rs IH]; intros st; simpl; [done|].
  destruct (ColumnsQuery.hidden r) eqn:H; simpl.
  - rewrite loopBody_hidden by done. apply IH.
  - apply IH.
Qed.

Lemma loopBody_first r :
  ColumnsQuery.hidden r = false ->
  loopBody typeFromName loopInit r = pendingState typeFromName (rowKey r) [] [r].
Proof.
  intros H. unfold loopBody, loopInit, pendingState, rowKey. rewrite H. simpl.
  by rewrite !name_neq_refl.
Qed.

Lemma loopBody_same k done pending r :
  ColumnsQuery.hidden r = false ->
  keyDiffers k (rowKey r) = false ->
  loopBody typeFromName (pendingState typeFromName k done pending) r
  = pendingState typeFromName k done (pending ++ [r]).
Proof.
  intros H E. unfold loopBody, pendingState. rewrite H. simpl.
  pose proof E as E'. unfold keyDiffers, rowKey in E'. simpl in E'. rewrite E'.
  apply keyDiffers_false in E. subst k. simpl.
  by rewrite map_app.
Qed.

Lemma loopBody_differs k done pending r :
  ColumnsQuery.hidden r = false ->
  keyDiffers k (rowKey r) = true ->
  loopBody typeFromName (pendingState typeFromName k done pending) r
  = pendingState typeFromName (rowKey r)
      (done ++ map (tableOfRun typeFromName) (List.filter publicRun [(k, pending)]))
      [r].
Proof.
  intros H E. unfold loopBody, pendingState. rewrite H. simpl.
  unfold keyDiffers, rowKey in E. simpl in E. rewrite E.
  unfold emit, publicRun, name_neq. simpl.
  destruct (String.eqb k.1.2 "public"); simpl; [done|].
  by rewrite app_nil_r.
Qed.

Lemma loopFlush_pending k done pending :
  tables (loopFlush (pendingState typeFromName k done pending))
  = done ++ map (tableOfRun typeFromName) (List.filter publicRun [(k, pending)]).
Proof.
  unfold loopFlush, pendingState, emit, publicRun, name_neq. simpl.
  destruct (String.eqb k.1.2 "public"); simpl; [done|].
  by rewrite app_nil_r.
Qed.

Lemma runs_cons r rs : runs (r :: rs) = attach (rowKey r) [r] (runs rs).
Proof. reflexivity. Qed.

Lemma loop_pending vs :
  Forall (fun r => ColumnsQuery.hidden r = false) vs ->
  forall k done pending,
    tables (loopFlush
              (fold_left (loopBody typeFromName) vs
                 (pendingState typeFromName k done pending)))
    = done ++ map (tableOfRun typeFromName)
                (List.filter publicRun (attach k pending (runs vs))).
Proof.
  induction 1 as [|r vs Hr Hvs IH]; intros k done pending.
  - apply loopFlush_pending.
  - cbn [fold_left]. rewrite runs_cons.
    destruct (keyDiffers k (rowKey r)) eqn:E.
    + rewrite loopBody_differs by done. rewrite IH.
      rewrite attach_differs by done.
      rewrite <- app_assoc. f_equal.
      change ((k, pending) :: attach (rowKey r) [r] (runs vs))
        with ([(k, pending)] ++ attach (rowKey r) [r] (runs vs)).
      by rewrite List.filter_app, map_app.
    + rewrite loopBody_same by done. rewrite IH.
      apply keyDiffers_false in E. subst k.
      by rewrite attach_attach.
Qed.

Lemma retained_visible rs :
  Forall (fun r => ColumnsQuery.hidden r = false) (retained rs).
Proof.
  apply List.Forall_forall. intros r [_ H]%filter_In.
  by apply negb_true_iff in H.
Qed.

(** The loop followed by the final flush computes [grouped]. *)
Lemma loop_grouped rs :
  tables (loopFlush (fold_left (loopBody typeFromName) rs loopInit))
  = grouped typeFromName rs.
Proof.
  rewrite loop_retained. unfold grouped.
  pose proof (retained_visible rs) as Hv.
  destruct (retained rs) as [|r vs]; [done|].
  inversion Hv as [|? ? Hr Hvs]; subst.
  cbn [fold_left]. rewrite loopBody_first by done.
  by rewrite loop_pending.
Qed.

Lemma extractTables_decoded rows err qi :
  extractTables typeFromName (mkDB (decoded rows err) qi)
  = (grouped typeFromName rows, err).
Proof.
  unfold extractTables, decoded. simpl.
  rewrite loopRows_decoded. by rewrite loop_grouped.
Qed.
End TablesProofs.

Section TablesClaims.
Context {ColType : Type}.
Variable typeFromName : string -> ColType.

Lemma grouped_elem rs (t : tableRef ColType) :
  t ∈ grouped typeFromName rs ->
  exists run, run ∈ runs (retained rs) /\ publicRun run = true
              /\ t = tableOfRun typeFromName run.
Proof.
  unfold grouped. rewrite list_elem_of_In, in_map_iff.
  intros (run & <- & [Hin Hpub]%filter_In).
  exists run. by rewrite list_elem_of_In.
Qed.

Lemma run_rows_retained rs run r :
  run ∈ runs (retained rs) -> r ∈ run.2 ->
  r ∈ rs /\ ColumnsQuery.hidden r = false /\ rowKey r = run.1.
Proof.
  intros Hrun Hr.
  assert (r ∈ retained rs) as Hret.
  { rewrite <- (runs_concat (retained rs)).
    rewrite list_elem_of_In, in_concat. exists run.2.
    split; [apply in_map; by apply list_elem_of_In | by apply list_elem_of_In]. }
  apply list_elem_of_In, filter_In in Hret as [Hin Hvis].
  split; [by apply list_elem_of_In|]. split; [by apply negb_true_iff|].
  apply runs_groups in Hrun as [_ Hall].
  rewrite List.Forall_forall in Hall. apply Hall. by apply list_elem_of_In.
Qed.

Lemma filter_length_all {A} (f : A -> bool) l :
  forallb f l = true -> length (List.filter f l) = length l.
Proof.
  induction l as [|a l IH]; simpl; [done|].
  intros [-> H]%andb_true_iff. simpl. by rewrite IH.
Qed.

Lemma filter_length_some {A} (f : A -> bool) l :
  existsb (fun a => negb (f a)) l = true ->
  length (List.filter f l) < length l.
Proof.
  induction l as [|a l IH]; simpl; [done|].
  pose proof (List.filter_length_le f l).
  destruct (f a); simpl; [|lia].
  intros H'. apply IH in H'. lia.
Qed.

(** C4 (as amended): the runs are those of the rows that are not hidden.
    With every decoded input, [extractTables] returns one [tableRef] per run
    of the target schema, in input order, whose columns are the columns of
    the rows of the run in input order (the last run included); so it
    returns exactly as many tables as there are runs when all of them are
    in the target schema, fewer when some are not, and none, with no error,
    on an empty input. *)
Theorem extractTables_groups_retained_runs rows err qi :
  let out := (extractTables typeFromName (mkDB (decoded rows err) qi)).1 in
  out = map (tableOfRun typeFromName)
          (List.filter publicRun (runs (retained rows)))
  /\ (forallb publicRun (runs (retained rows)) = true ->
      length out = length (runs (retained rows)))
  /\ (existsb (fun run => negb (publicRun run)) (runs (retained rows)) = true ->
      length out < length (runs (retained rows)))
  /\ extractTables typeFromName (mkDB (decoded [] None) qi) = ([], None).
Proof.
  rewrite extractTables_decoded. simpl. unfold grouped.
  split; [done|]. rewrite length_map. split; [|split].
  - apply filter_length_all.
  - apply filter_length_some.
  - by rewrite extractTables_decoded.
Qed.

Lemma loopRows_dropHidden (st : loopState ColType) scans :
  loopRows typeFromName st (List.filter visibleScan scans)
  = loopRows typeFromName st scans.
Proof.
  revert st. induction scans as [|[e|r] scans IH]; intros st; simpl; [done..|].
  destruct (ColumnsQuery.hidden r) eqn:H; simpl.
  - rewrite loopBody_hidden by done. apply IH.
  - apply IH.
Qed.

(** C8: hidden rows are dropped before grouping.  The result of
    [extractTables] is the result on the same stream with the hidden rows
    taken out, and every column of every emitted [tableRef] is built from a
    scanned row that is not hidden. *)
Theorem hidden_rows_contribute_nothing (db : DB) :
  extractTables typeFromName db = extractTables typeFromName (dropHidden db)
  /\ forall t c,
      t ∈ (extractTables typeFromName db).1 -> c ∈ Columns t ->
      exists rows r,
        QueryColumns db = inr rows /\ inr r ∈ gosql.scans rows
        /\ ColumnsQuery.hidden r = false /\ c = columnOf typeFromName r.
Proof.
  split.
  - unfold extractTables, dropHidden. simpl.
    destruct (QueryColumns db) as [e|rows]; [done|]. simpl.
    by rewrite loopRows_dropHidden.
  - intros t c. unfold extractTables.
    destruct (QueryColumns db) as [e|rows]; simpl; [by intros ?%elem_of_nil|].
    destruct (loopRows typeFromName loopInit (gosql.scans rows)) as [e|st] eqn:L;
      simpl; [by intros ?%elem_of_nil|].
    apply loopRows_inr in L as (rs & Hscans & ->).
    rewrite loop_grouped.
    intros (run & Hrun & _ & ->)%grouped_elem. simpl.
    rewrite list_elem_of_In, in_map_iff. intros (r & <- & Hr).
    apply list_elem_of_In in Hr.
    destruct (run_rows_retained _ _ _ Hrun Hr) as (Hin & Hvis & _).
    exists rows, r. split; [done|]. split; [|done].
    rewrite Hscans. apply list_elem_of_In, in_map. by apply list_elem_of_In.
Qed.

Lemma retained_app a b : retained (a ++ b) = retained a ++ retained b.
Proof. apply List.filter_app. Qed.

Lemma retained_hidden run :
  (forall r, r ∈ run -> ColumnsQuery.hidden r = true) -> retained run = [].
Proof.
  induction run as [|r run IH]; intros H; simpl; [done|].
  rewrite (H r) by (by left). simpl. apply IH. intros r' Hr'. apply H. by right.
Qed.

(** C10: a run all of whose rows are hidden.  When the rows [run] of table
    [k] are all hidden and stand between [pre] and [post], which hold no row
    of [k], the result is the result for [pre ++ post] alone, no emitted
    [tableRef] carries the name of [k], and no emitted [tableRef] is
    empty. *)
Theorem all_hidden_run_emits_nothing pre run post err qi k :
  (forall r, r ∈ run -> rowKey r = k /\ ColumnsQuery.hidden r = true) ->
  (forall r, r ∈ pre ++ post -> rowKey r <> k) ->
  let res := extractTables typeFromName (mkDB (decoded (pre ++ run ++ post) err) qi) in
  res = extractTables typeFromName (mkDB (decoded (pre ++ post) err) qi)
  /\ (forall t, t ∈ res.1 -> k.1.2 = "public" ->
              TableName t <> tree.NewTableName k.1.1 k.2)
  /\ (forall t, t ∈ res.1 -> Columns t <> []).
Proof.
  intros Hrun Hother res. subst res. rewrite !extractTables_decoded. simpl.
  assert (retained (pre ++ run ++ post) = retained (pre ++ post)) as Hret.
  { rewrite !retained_app, (retained_hidden run); [done|].
    intros r Hr. by apply Hrun. }
  unfold grouped. rewrite Hret. split; [done|]. split.
  - intros t (r0 & Hr0 & Hpub & ->)%grouped_elem Hk Hname.
    destruct (runs_groups _ _ Hr0) as [Hne Hall].
    destruct r0 as [[[c s] n] g]. simpl in *.
    destruct g as [|r g]; [done|].
    destruct (run_rows_retained (pre ++ post) ((c, s, n), r :: g) r) as (Hin & _ & Hkey);
      [done|by left|].
    apply (Hother r Hin). rewrite Hkey. simpl.
    unfold publicRun in Hpub. simpl in Hpub. apply String.eqb_eq in Hpub.
    destruct k as [[kc ks] kn]. simpl in *. congruence.
  - intros t (r0 & Hr0 & _ & ->)%grouped_elem.
    destruct (runs_groups _ _ Hr0) as [Hne _]. simpl.
    by destruct (r0.2).
Qed.
End TablesClaims.

(** C4 as written fails on an input with a hidden-only run: the rows are
    ordered, form two runs of the target schema, and one table comes out. *)
Lemma hidden_only_run_is_not_counted :
  let rows := Fixtures.hiddenThenVisible in
  let out :=
    (extractTables Fixtures.typeFromName
       (mkDB (decoded rows None) Fixtures.noIndexes)).1 in
  forallb publicRun (runs rows) = true
  /\ length (runs rows) = 2
  /\ out = [mkTableRef (tree.NewTableName "db" "t2")
              [tree.ColumnTableDef.mk "b" "INT8" tree.NotNull false]]
  /\ length out <> length (runs rows).
Proof. vm_compute. repeat split; congruence. Qed.

(** ** Index assembly *)

Lemma rowsOf_app i a b : rowsOf i (a ++ b) = rowsOf i a ++ rowsOf i b.
Proof. apply List.filter_app. Qed.

Lemma assembled_snoc_other t pre r i :
  IndexesQuery.idx r <> i -> assembled t (pre ++ [r]) i = assembled t pre i.
Proof.
  intros Hne. unfold assembled. rewrite rowsOf_app. simpl.
  destruct (String.eqb_spec (IndexesQuery.idx r) i) as [E|_]; [done|].
  by rewrite app_nil_r.
Qed.

Lemma assembled_snoc_same t pre r :
  assembled t (pre ++ [r]) (IndexesQuery.idx r)
  = let create :=
      default (tree.CreateIndex.mk (IndexesQuery.idx r) t [] [])
        (assembled t pre (IndexesQuery.idx r)) in
    Some (if IndexesQuery.storing r
          then tree.CreateIndex.mk (tree.CreateIndex.Name create)
                 (tree.CreateIndex.Table create) (tree.CreateIndex.Columns create)
                 (tree.CreateIndex.Storing create ++ [IndexesQuery.col r])
          else tree.CreateIndex.mk (tree.CreateIndex.Name create)
                 (tree.CreateIndex.Table create)
                 (tree.CreateIndex.Columns create ++ [keyElem r])
                 (tree.CreateIndex.Storing create)).
Proof.
  unfold assembled. rewrite rowsOf_app. simpl. rewrite String.eqb_refl.
  rewrite !List.filter_app, !map_app. simpl.
  destruct (rowsOf (IndexesQuery.idx r) pre) as [|r0 l] eqn:R; simpl;
    destruct (IndexesQuery.storing r); simpl; by rewrite ?app_nil_r.
Qed.

Lemma indexBody_lookup t (m : gmap tree.Name tree.CreateIndex.t) pre r :
  (forall i, m !! i = assembled t pre i) ->
  forall i, indexBody t m r !! i = assembled t (pre ++ [r]) i.
Proof.
  intros Hm i. unfold indexBody.
  destruct (decide (IndexesQuery.idx r = i)) as [<-|Hne].
  - rewrite lookup_insert_eq, assembled_snoc_same. simpl. f_equal.
    rewrite <- Hm.
    assert (forall create,
      (match m !! IndexesQuery.idx r with
       | Some _ => m
       | None => <[IndexesQuery.idx r := create]> m
       end) !!! IndexesQuery.idx r = default create (m !! IndexesQuery.idx r)) as ->.
    { intros create. destruct (m !! IndexesQuery.idx r) as [c|] eqn:E; simpl.
      - by rewrite lookup_total_alt, E.
      - by rewrite lookup_total_insert_eq. }
    unfold keyElem. by destruct (IndexesQuery.storing r), (IndexesQuery.ascending r).
  - rewrite lookup_insert_ne by done. rewrite assembled_snoc_other by done.
    rewrite <- Hm. destruct (m !! IndexesQuery.idx r); [done|].
    by rewrite lookup_insert_ne.
Qed.

Lemma indexRows_decoded t (m : gmap tree.Name tree.CreateIndex.t) rs :
  indexRows t m (map inr rs) = inr (fold_left (indexBody t) rs m).
Proof.
  revert m. induction rs as [|r rs IH]; intros m; simpl; [done|]. apply IH.
Qed.

Lemma indexFold_lookup t rs :
  forall (m : gmap tree.Name tree.CreateIndex.t) pre,
    (forall i, m !! i = assembled t pre i) ->
    forall i, fold_left (indexBody t) rs m !! i = assembled t (pre ++ rs) i.
Proof.
  induction rs as [|r rs IH]; intros m pre Hm i; simpl.
  - by rewrite app_nil_r.
  - rewrite (IH _ (pre ++ [r])); [by rewrite <- app_assoc|].
    by apply indexBody_lookup.
Qed.

(** The map built from the rows of one table holds, under each index name,
    the definition assembled from the rows of that name. *)
Lemma indexRows_assembled t rs :
  exists m, indexRows t ∅ (map inr rs) = inr m
            /\ forall i, m !! i = assembled t rs i.
Proof.
  exists (fold_left (indexBody t) rs ∅). split; [apply indexRows_decoded|].
  intros i. by apply (indexFold_lookup t rs ∅ []).
Qed.

Lemma tableIndexes_decoded db t rs :
  QueryIndexes db t = decoded rs None ->
  exists m, tableIndexes db t = inr m /\ forall i, m !! i = assembled t rs i.
Proof.
  intros Hq. destruct (indexRows_assembled t rs) as (m & Hm & Hl).
  exists m. split; [|done]. unfold tableIndexes. rewrite Hq. simpl. by rewrite Hm.
Qed.

Lemma in_rowsOf i rs r :
  r ∈ rowsOf i rs <-> r ∈ rs /\ IndexesQuery.idx r = i.
Proof.
  unfold rowsOf. rewrite !list_elem_of_In, filter_In.
  by rewrite String.eqb_eq.
Qed.

(** C5 (as amended): for the rows of a table's index query that carry index
    name [i], provided there is one, the [tree.CreateIndex] stored under [i]
    has the names of the storing rows, and only those, in [Storing], one
    key element per other row in [Columns] in arrival order, ascending when
    the row says so and descending otherwise; the names in the two lists
    together are the column names of the rows; and the two lists share no
    name when no column name occurs both in a storing row and in a row that
    is not storing. *)
Theorem index_key_storing_partition t rs i :
  rowsOf i rs <> [] ->
  exists m create,
    indexRows t ∅ (map inr rs) = inr m /\ m !! i = Some create
    /\ tree.CreateIndex.Name create = i /\ tree.CreateIndex.Table create = t
    /\ tree.CreateIndex.Storing create
       = map IndexesQuery.col (List.filter IndexesQuery.storing (rowsOf i rs))
    /\ tree.CreateIndex.Columns create
       = map (fun r => tree.IndexElem.mk (IndexesQuery.col r)
                         (if IndexesQuery.ascending r
                          then tree.Ascending else tree.Descending))
           (List.filter (fun r => negb (IndexesQuery.storing r)) (rowsOf i rs))
    /\ (forall n,
          n ∈ map tree.IndexElem.Column (tree.CreateIndex.Columns create)
              ++ tree.CreateIndex.Storing create
          <-> n ∈ map IndexesQuery.col (rowsOf i rs))
    /\ ((forall r r', r ∈ rowsOf i rs -> r' ∈ rowsOf i rs ->
                      IndexesQuery.storing r = true ->
                      IndexesQuery.storing r' = false ->
                      IndexesQuery.col r <> IndexesQuery.col r') ->
        forall n,
          n ∈ map tree.IndexElem.Column (tree.CreateIndex.Columns create) ->
          n ∉ tree.CreateIndex.Storing create).
Proof.
  intros Hne. destruct (indexRows_assembled t rs) as (m & Hm & Hl).
  specialize (Hl i). unfold assembled in Hl.
  destruct (rowsOf i rs) as [|r0 l] eqn:R; [done|]. rewrite <- R in *.
  eexists m, _. split; [done|]. split; [exact Hl|]. simpl.
  do 4 (split; [done|]). split.
  - intros n. rewrite !list_elem_of_In, in_app_iff, !in_map_iff. split.
    + intros [(e & <- & (r & <- & [Hr _]%filter_In)%in_map_iff)
             |(r & <- & [Hr _]%filter_In)]; by exists r.
    + intros (r & <- & Hr). destruct (IndexesQuery.storing r) eqn:S.
      * right. exists r. split; [done|]. by apply filter_In.
      * left. exists (keyElem r). split; [done|]. apply in_map, filter_In.
        by rewrite S.
  - intros Hdisj n. rewrite !list_elem_of_In, !in_map_iff.
    intros (e & <- & (r & <- & [Hr Hs]%filter_In)%in_map_iff)
           (r' & Heq & [Hr' Hs']%filter_In).
    apply negb_true_iff in Hs. simpl in Heq.
    apply (Hdisj r' r); by rewrite ?list_elem_of_In.
Qed.

(** The second scenario of the specification: a key column and a storing
    column. *)
Example idx1_scenario :
  exists m,
    indexRows (tree.NewTableName "db" "t") ∅ (map inr Fixtures.idx1Rows) = inr m
    /\ m !! "idx1" = Some Fixtures.idx1.
Proof.
  destruct (indexRows_assembled (tree.NewTableName "db" "t") Fixtures.idx1Rows)
    as (m & Hm & Hl).
  exists m. split; [done|]. by rewrite Hl.
Qed.

(** C5 as written fails on rows that list one column both as storing and as
    key column: the name is in both lists of the index definition. *)
Lemma storing_and_key_lists_can_overlap :
  exists m create,
    indexRows (tree.NewTableName "db" "t") ∅ (map inr Fixtures.overlappingRows)
    = inr m
    /\ m !! "idx1" = Some create
    /\ "a" ∈ map tree.IndexElem.Column (tree.CreateIndex.Columns create)
    /\ "a" ∈ tree.CreateIndex.Storing create.
Proof.
  destruct (indexRows_assembled (tree.NewTableName "db" "t")
              Fixtures.overlappingRows) as (m & Hm & Hl).
  exists m, (tree.CreateIndex.mk "idx1" (tree.NewTableName "db" "t")
               [tree.IndexElem.mk "a" tree.Ascending] ["a"]).
  split; [done|]. split; [by rewrite Hl|]. simpl. split; by left.
Qed.

Section IndexCatalog.
Context {ColType : Type}.

Lemma extractIndexesLoop_ok db ts :
  forall ret0 ret,
    extractIndexesLoop (ColType:=ColType) db ret0 ts = (ret, None) ->
    (forall t, t ∈ ts ->
       exists m, tableIndexes db (TableName t) = inr m
                 /\ ret !! TableName t = Some m)
    /\ (forall k, k ∉ map TableName ts -> ret !! k = ret0 !! k).
Proof.
  induction ts as [|t ts IH]; intros ret0 ret; simpl.
  - intros [= <-]. split; [by intros t ?%elem_of_nil|done].
  - destruct (tableIndexes db (TableName t)) as [e|m] eqn:E; [done|].
    intros [Hin Hout]%IH. split.
    + intros t' [->|Ht']%elem_of_cons; [|by apply Hin].
      exists m. split; [done|].
      destruct (decide (TableName t ∈ map TableName ts)) as [Hd|Hd].
      * apply list_elem_of_In, in_map_iff in Hd as (t2 & Heq & Ht2).
        apply list_elem_of_In, Hin in Ht2 as (m2 & Hm2 & Hl2).
        rewrite Heq in Hm2, Hl2. congruence.
      * rewrite Hout by done. apply lookup_insert_eq.
    + intros k Hk. apply not_elem_of_cons in Hk as [Hk1 Hk2].
      rewrite Hout by done. by apply lookup_insert_ne.
Qed.

Lemma extractIndexesLoop_error db ts :
  forall ret0 ret e,
    extractIndexesLoop (ColType:=ColType) db ret0 ts = (ret, Some e) -> ret = ∅.
Proof.
  induction ts as [|t ts IH]; intros ret0 ret e; simpl; [done|].
  destruct (tableIndexes db (TableName t)) as [e'|m]; [by intros [= <- _]|].
  apply IH.
Qed.

(** C3 (as amended): when [extractIndexes] succeeds, every table of the list
    has an entry in the catalog, namely the map built from the rows of its
    index query; a table whose query yields no row has the empty map as its
    entry, and a table with at least one row has a map that is not empty. *)
Theorem every_table_gets_an_entry db (tables : list (tableRef ColType)) ret t :
  extractIndexes db tables = (ret, None) ->
  t ∈ tables ->
  (exists m, tableIndexes db (TableName t) = inr m
             /\ ret !! TableName t = Some m)
  /\ (QueryIndexes db (TableName t) = decoded [] None ->
      ret !! TableName t = Some ∅)
  /\ (forall r rs, QueryIndexes db (TableName t) = decoded (r :: rs) None ->
      exists m, ret !! TableName t = Some m /\ m <> ∅).
Proof.
  intros [Hin _]%extractIndexesLoop_ok Ht.
  destruct (Hin t Ht) as (m & Hm & Hl). split; [by exists m|]. split.
  - intros Hq. rewrite Hl. f_equal.
    unfold tableIndexes in Hm. rewrite Hq in Hm. simpl in Hm. congruence.
  - intros r rs Hq. exists m. split; [done|].
    destruct (tableIndexes_decoded db (TableName t) (r :: rs) Hq) as (m' & Hm' & Hl').
    assert (m' = m) as -> by congruence.
    intros ->. specialize (Hl' (IndexesQuery.idx r)).
    rewrite lookup_empty in Hl'. unfold assembled in Hl'. simpl in Hl'.
    by rewrite String.eqb_refl in Hl'.
Qed.
End IndexCatalog.

(** C3 as written fails for a table whose index query yields no row: the
    table is a key of the catalog, with the empty map as its value. *)
Lemma table_without_index_rows_is_a_key :
  let db := mkDB (decoded [] None) Fixtures.noIndexes in
  QueryIndexes db (TableName Fixtures.oneTable) = decoded [] None
  /\ extractIndexes db [Fixtures.oneTable]
     = ({[ tree.NewTableName "db" "t" := ∅ ]}, None)
  /\ (extractIndexes db [Fixtures.oneTable]).1 !! tree.NewTableName "db" "t"
     <> None.
Proof.
  split; [done|]. split; [done|].
  change ((extractIndexes (mkDB (decoded [] None) Fixtures.noIndexes)
             [Fixtures.oneTable]).1)
    with (<[tree.NewTableName "db" "t" := (∅ : gmap tree.Name tree.CreateIndex.t)]>
            (∅ : gmap tree.TableName (gmap tree.Name tree.CreateIndex.t))).
  by rewrite lookup_insert_eq.
Qed.

(** ** The schema cache *)

Section CacheProofs.
Context {ColType : Type}.
Variable typeFromName : string -> ColType.

Lemma extractTables_error_nil db tbls e :
  extractTables typeFromName db = (tbls, Some e) ->
  tbls = []
  \/ exists rows, QueryColumns db = decoded rows (Some e)
                  /\ tbls = grouped typeFromName rows.
Proof.
  unfold extractTables.
  destruct (QueryColumns db) as [e0|[scans err]] eqn:Q; simpl.
  - intros [= <- _]. by left.
  - destruct (loopRows typeFromName loopInit scans) as [e0|st] eqn:L.
    + intros [= <- _]. by left.
    + apply loopRows_inr in L as (rs & -> & ->).
      rewrite loop_grouped. intros [= <- ->]. right. by exists rs.
Qed.

(** C1 (as amended): a failed [ReloadSchemas] does not restore the previous
    state.  It leaves [rnd] and [db] alone and stores the table list that
    [extractTables] returned; when the error comes from [extractTables] the
    index catalog is the previous one, and when it comes from
    [extractIndexes] the index catalog is the nil map. *)
Theorem ReloadSchemas_failure_overwrites s d e s' tr :
  Smither.db s = Some d ->
  ReloadSchemas typeFromName s = (Some (Some e), s', tr) ->
  Smither.rnd s' = Smither.rnd s /\ Smither.db s' = Smither.db s
  /\ ((extractTables typeFromName d = (Smither.tables s', Some e)
       /\ Smither.indexes s' = Smither.indexes s)
      \/ (extractTables typeFromName d = (Smither.tables s', None)
          /\ extractIndexes d (Smither.tables s') = (∅, Some e)
          /\ Smither.indexes s' = ∅)).
Proof.
  intros Hd. unfold ReloadSchemas, bind, get, put, ret, emitEvent, defer.
  rewrite Hd.
  destruct (extractTables typeFromName d) as [tbls [e1|]] eqn:ET; simpl.
  - intros [= -> <- _]. simpl. auto.
  - destruct (extractIndexes d tbls) as [idxs e2] eqn:EI; simpl.
    intros [= -> <- _]. simpl.
    pose proof (extractIndexesLoop_error _ _ _ _ _ EI) as ->.
    split; [done|]. split; [done|]. right. by rewrite EI.
Qed.

(** A cache without connection is left as it is. *)
Lemma ReloadSchemas_no_db s :
  Smither.db s = None -> ReloadSchemas typeFromName s = (Some None, s, []).
Proof.
  intros Hd. unfold ReloadSchemas, bind, get, ret. by rewrite Hd.
Qed.

(** A successful [ReloadSchemas] installs both fresh values. *)
Lemma ReloadSchemas_success s d s' tr :
  Smither.db s = Some d ->
  ReloadSchemas typeFromName s = (Some None, s', tr) ->
  extractTables typeFromName d = (Smither.tables s', None)
  /\ extractIndexes d (Smither.tables s') = (Smither.indexes s', None).
Proof.
  intros Hd. unfold ReloadSchemas, bind, get, put, ret, emitEvent, defer.
  rewrite Hd.
  destruct (extractTables typeFromName d) as [tbls [e1|]] eqn:ET; simpl; [done|].
  destruct (extractIndexes d tbls) as [idxs e2] eqn:EI; simpl.
  intros [= -> <- _]. by simpl.
Qed.
End CacheProofs.

(** C1 as written fails when the index query of the second table fails: the
    call returns that error, the table list is the new one and the index
    catalog is empty, neither being what it was before. *)
Lemma failed_reload_changes_the_cache :
  let s := Fixtures.loadedCache in
  let r := ReloadSchemas Fixtures.typeFromName s in
  result r = Some (Some "index query failed")
  /\ Smither.tables s = [Fixtures.oneTable]
  /\ Smither.tables (after r)
     = [mkTableRef Fixtures.t1 [tree.ColumnTableDef.mk "a" "INT8" tree.NotNull false];
        mkTableRef Fixtures.t2 [tree.ColumnTableDef.mk "b" "INT8" tree.NotNull false]]
  /\ Smither.tables (after r) <> Smither.tables s
  /\ Smither.indexes (after r) = ∅
  /\ Smither.indexes (after r) <> Smither.indexes s.
Proof.
  assert (extractTables Fixtures.typeFromName
            (mkDB (decoded Fixtures.twoTableRows None) Fixtures.secondIndexQueryFails)
          = ([mkTableRef Fixtures.t1 [tree.ColumnTableDef.mk "a" "INT8" tree.NotNull false];
              mkTableRef Fixtures.t2 [tree.ColumnTableDef.mk "b" "INT8" tree.NotNull false]],
             None)) as ET by (vm_compute; reflexivity).
  cbv zeta.
  unfold ReloadSchemas, bind, get, put, ret, emitEvent, defer, result, after,
    Fixtures.loadedCache.
  cbn [Smither.db Smither.rnd Smither.tables Smither.indexes].
  rewrite ET. cbv iota beta.
  unfold extractIndexes. simpl.
  split; [done|]. split; [done|]. split; [done|]. split; [done|].
  split; [done|].
  intros H. apply (f_equal (fun m => m !! tree.NewTableName "db" "t")) in H.
  by rewrite lookup_empty, lookup_singleton_eq in H.
Qed.

Section PickProofs.
Context {ColType : Type}.
Implicit Types s : Smither.t ColType.

Lemma draw_lt s n : n <> 0 -> draw s n < n.
Proof. intros Hn. unfold draw, rand.Intn. simpl. by apply Nat.mod_upper_bound. Qed.

Lemma rndIntn_pos s n :
  n <> 0 -> rndIntn n s = (Some (draw s n), drawn s n, [RndIntn n]).
Proof.
  intros Hn. unfold rndIntn. destruct (Nat.eqb_spec n 0) as [|_]; [done|].
  reflexivity.
Qed.

Lemma getRandTable_empty s :
  Smither.tables s = [] ->
  getRandTable s = (Some (None, false), s, [RLock; RUnlock]).
Proof.
  intros H. unfold getRandTable, bind, emitEvent, defer, get, ret. by rewrite H.
Qed.

Lemma getRandTable_pick s :
  Smither.tables s <> [] ->
  exists t,
    Smither.tables s !! draw s (length (Smither.tables s)) = Some t
    /\ getRandTable s
       = (Some (Some t, true), drawn s (length (Smither.tables s)),
          [RLock; RndIntn (length (Smither.tables s)); RUnlock]).
Proof.
  intros H.
  assert (length (Smither.tables s) <> 0) as Hlen by (by destruct (Smither.tables s)).
  destruct (lookup_lt_is_Some_2 (Smither.tables s)
              (draw s (length (Smither.tables s))) (draw_lt s _ Hlen)) as [t Ht].
  exists t. split; [done|].
  unfold getRandTable, bind, emitEvent, defer, get, ret.
  destruct (Nat.eqb_spec (length (Smither.tables s)) 0) as [|_]; [done|].
  rewrite rndIntn_pos by done. by rewrite Ht.
Qed.

Lemma getIndexes_eval s table :
  getIndexes table s
  = (Some (default ∅ (Smither.indexes s !! table)), s, [RLock; RUnlock]).
Proof. reflexivity. Qed.

Lemma getRandTableIndex_empty s table :
  default ∅ (Smither.indexes s !! table) = ∅ ->
  getRandTableIndex table s = (Some notFound, s, [RLock; RUnlock]).
Proof.
  intros H. unfold getRandTableIndex, bind. rewrite getIndexes_eval, H.
  reflexivity.
Qed.

Lemma getRandTableIndex_pick s table :
  let indexes := default ∅ (Smither.indexes s !! table) in
  indexes <> ∅ ->
  exists n idx,
    indexes !! n = Some idx
    /\ getRandTableIndex table s
       = (Some (Some (tree.TableIndexName.mk table (tree.CreateIndex.Name idx)),
                Some idx, true),
          drawn s (size indexes), [RLock; RUnlock; RndIntn (size indexes)]).
Proof.
  intros indexes Hne.
  assert (size indexes <> 0) as Hsize by (by apply map_size_non_empty_iff).
  assert (length (map_to_list indexes).*1 = size indexes) as Hlen
    by (by rewrite length_fmap, length_map_to_list).
  destruct (lookup_lt_is_Some_2 (map_to_list indexes).*1 (draw s (size indexes)))
    as [n Hn]; [rewrite Hlen; by apply draw_lt|].
  assert (exists idx, indexes !! n = Some idx) as [idx Hidx].
  { apply list_elem_of_lookup_2, list_elem_of_fmap in Hn as ([n' idx] & -> & Hin).
    exists idx. by apply elem_of_map_to_list. }
  exists n, idx. split; [done|].
  unfold getRandTableIndex, bind. rewrite getIndexes_eval. fold indexes.
  destruct (Nat.eqb_spec (size indexes) 0) as [|_]; [done|].
  rewrite Hlen, rndIntn_pos by done. by rewrite Hn, Hidx.
Qed.

(** C2 (as amended): [getRandIndex] reports "no tables" and "no indexes on
    the table that was picked" by one and the same outcome,
    [nil, nil, false]; it differs only from the outcome of a successful
    pick, whose flag is true. *)
Theorem getRandIndex_not_found_outcome s :
  (Smither.tables s = [] -> result (getRandIndex s) = Some notFound)
  /\ (forall t,
        Smither.tables s !! draw s (length (Smither.tables s)) = Some t ->
        default ∅ (Smither.indexes s !! TableName t) = ∅ ->
        result (getRandIndex s) = Some notFound)
  /\ (forall t,
        Smither.tables s !! draw s (length (Smither.tables s)) = Some t ->
        default ∅ (Smither.indexes s !! TableName t) <> ∅ ->
        exists n idx,
          default ∅ (Smither.indexes s !! TableName t) !! n = Some idx
          /\ result (getRandIndex s)
             = Some (Some (tree.TableIndexName.mk (TableName t)
                             (tree.CreateIndex.Name idx)),
                     Some idx, true)).
Proof.
  split; [|split].
  - intros H. unfold getRandIndex, bind. by rewrite getRandTable_empty.
  - intros t Ht Hidx.
    assert (Smither.tables s <> []) as Hne by (intros E; by rewrite E in Ht).
    destruct (getRandTable_pick s Hne) as (t' & Ht' & Hpick).
    assert (t' = t) as -> by congruence.
    unfold getRandIndex, bind. rewrite Hpick. simpl.
    rewrite getRandTableIndex_empty; [done|exact Hidx].
  - intros t Ht Hidx.
    assert (Smither.tables s <> []) as Hne by (intros E; by rewrite E in Ht).
    destruct (getRandTable_pick s Hne) as (t' & Ht' & Hpick).
    assert (t' = t) as -> by congruence.
    destruct (getRandTableIndex_pick (drawn s (length (Smither.tables s)))
                (TableName t) Hidx) as (n & idx & Hn & Hpick').
    exists n, idx. split; [exact Hn|].
    unfold getRandIndex, bind. rewrite Hpick. simpl. by rewrite Hpick'.
Qed.

(** The picks never panic. *)
Lemma getRandIndex_returns s : is_Some (result (getRandIndex s)).
Proof.
  destruct (decide (Smither.tables s = [])) as [H|H].
  - unfold getRandIndex, bind. by rewrite getRandTable_empty.
  - destruct (getRandTable_pick s H) as (t & Ht & Hpick).
    unfold getRandIndex, bind. rewrite Hpick. simpl.
    set (s1 := drawn s (length (Smither.tables s))).
    destruct (decide (default ∅ (Smither.indexes s1 !! TableName t) = ∅)) as [E|E].
    + by rewrite getRandTableIndex_empty.
    + destruct (getRandTableIndex_pick s1 (TableName t) E) as (n & idx & _ & ->).
      done.
Qed.

(** C9 (as amended): [getRandTable] calls [s.rnd.Intn] while it holds the
    read lock; [getRandTableIndex], and with it the index pick of
    [getRandIndex], calls [s.rnd.Intn] after [getIndexes] has released the
    lock, whenever the table has an index. *)
Theorem rnd_access_and_the_lock s table :
  guarded (trace (getRandTable s)) = true
  /\ (default ∅ (Smither.indexes s !! table) <> ∅ ->
      trace (getRandTableIndex table s)
      = [RLock; RUnlock;
         RndIntn (size (default ∅ (Smither.indexes s !! table)))]
      /\ guarded (trace (getRandTableIndex table s)) = false)
  /\ (forall t,
        Smither.tables s !! draw s (length (Smither.tables s)) = Some t ->
        default ∅ (Smither.indexes s !! TableName t) <> ∅ ->
        trace (getRandIndex s)
        = [RLock; RndIntn (length (Smither.tables s)); RUnlock;
           RLock; RUnlock;
           RndIntn (size (default ∅ (Smither.indexes s !! TableName t)))]
        /\ guarded (trace (getRandIndex s)) = false).
Proof.
  split; [|split].
  - destruct (decide (Smither.tables s = [])) as [H|H].
    + by rewrite getRandTable_empty.
    + destruct (getRandTable_pick s H) as (t & _ & ->). reflexivity.
  - intros Hne.
    destruct (getRandTableIndex_pick s table Hne) as (n & idx & _ & ->).
    by split.
  - intros t Ht Hidx.
    assert (Smither.tables s <> []) as Hne by (intros E; by rewrite E in Ht).
    destruct (getRandTable_pick s Hne) as (t' & Ht' & Hpick).
    assert (t' = t) as -> by congruence.
    destruct (getRandTableIndex_pick (drawn s (length (Smither.tables s)))
                (TableName t) Hidx) as (n & idx & _ & Hpick').
    unfold getRandIndex, bind. rewrite Hpick. simpl. rewrite Hpick'.
    by split.
Qed.
End PickProofs.

(** C2 as written fails: a cache without tables and a cache whose only
    table has no index give the same outcome. *)
Lemma no_tables_and_no_indexes_look_alike :
  Smither.tables Fixtures.emptyCache = []
  /\ Smither.tables Fixtures.cacheWithoutIndexes = [Fixtures.oneTable]
  /\ result (getRandTable Fixtures.cacheWithoutIndexes)
     = Some (Some Fixtures.oneTable, true)
  /\ result (getRandIndex Fixtures.emptyCache) = Some notFound
  /\ result (getRandIndex Fixtures.cacheWithoutIndexes) = Some notFound
  /\ result (getRandIndex Fixtures.emptyCache)
     = result (getRandIndex Fixtures.cacheWithoutIndexes).
Proof. vm_compute. repeat split. Qed.

(** C9 as written fails: with an index on the table, [getRandTableIndex]
    and [getRandIndex] draw from [s.rnd] after the read lock is released. *)
Lemma index_pick_draws_without_the_lock :
  trace (getRandTableIndex (tree.NewTableName "db" "t") Fixtures.cacheWithIndex)
  = [RLock; RUnlock; RndIntn 1]
  /\ guarded (trace (getRandTableIndex (tree.NewTableName "db" "t")
                       Fixtures.cacheWithIndex)) = false
  /\ trace (getRandIndex Fixtures.cacheWithIndex)
     = [RLock; RndIntn 1; RUnlock; RLock; RUnlock; RndIntn 1]
  /\ guarded (trace (getRandIndex Fixtures.cacheWithIndex)) = false.
Proof. vm_compute. repeat split. Qed.

(** ** The operator catalog *)

Lemma appendAt_lookup {K} `{Countable K} {A} (m : gmap K (list A)) k x k' :
  default [] (appendAt m k x !! k')
  = default [] (m !! k') ++ (if decide (k = k') then [x] else []).
Proof.
  unfold appendAt. destruct (decide (k = k')) as [<-|Hne].
  - by rewrite lookup_insert_eq.
  - rewrite lookup_insert_ne by done. by rewrite app_nil_r.
Qed.

Lemma fold_appendAt_lookup {K} `{Countable K} {A} (key : A -> K) l :
  forall (m : gmap K (list A)) k,
    default [] (fold_left (fun m x => appendAt m (key x) x) l m !! k)
    = default [] (m !! k) ++ List.filter (fun x => bool_decide (key x = k)) l.
Proof.
  induction l as [|x l IH]; intros m k; simpl.
  - by rewrite app_nil_r.
  - rewrite IH, appendAt_lookup, <- app_assoc. f_equal.
    destruct (decide (key x = k)) as [E|E].
    + by rewrite bool_decide_eq_true_2.
    + by rewrite bool_decide_eq_false_2.
Qed.

Lemma catalogEntries_appendAt {A} (m : gmap N (list A)) k x :
  Permutation (catalogEntries (appendAt m k x)) (catalogEntries m ++ [x]).
Proof.
  unfold catalogEntries, appendAt.
  destruct (m !! k) as [l|] eqn:E; simpl.
  - rewrite <- (insert_delete_eq m k (l ++ [x])).
    rewrite <- (insert_delete_id m k l) at 2 by done.
    rewrite !map_to_list_insert by apply lookup_delete_eq. simpl.
    rewrite <- !app_assoc. apply Permutation_app_head, Permutation_app_comm.
  - rewrite map_to_list_insert by done. simpl.
    apply Permutation_cons_append.
Qed.

Lemma fold_appendAt_entries {A} (key : A -> N) l :
  forall m : gmap N (list A),
    Permutation (catalogEntries (fold_left (fun m x => appendAt m (key x) x) l m))
      (catalogEntries m ++ l).
Proof.
  induction l as [|x l IH]; intros m; simpl.
  - by rewrite app_nil_r.
  - rewrite IH, catalogEntries_appendAt, <- app_assoc. reflexivity.
Qed.

(** The nested loops of [operators] append the overloads one by one, in
    registry order. *)
Lemma operators_flat BinOps :
  operators BinOps
  = fold_left (fun m e => appendAt m (operatorOid e) e) (allOverloads BinOps) ∅.
Proof.
  unfold operators, allOverloads. generalize (∅ : gmap N (list operator)).
  induction BinOps as [|[op ovs] B IH]; intros m; simpl; [done|].
  rewrite fold_left_app, IH. f_equal.
  clear. revert m. induction ovs as [|bo ovs IH]; intros m; simpl; [done|].
  apply IH.
Qed.

(** C7: the operator catalog reflects the whole registry.  Under each key
    it holds, in registry order, exactly the overloads whose return type
    has that identifier, so each entry sits under its own return type; all
    entries together are the registry's overloads, each once; and every
    overload of every operator is found under its return type. *)
Theorem operators_reflect_the_registry BinOps :
  (forall o,
     operatorsAt (operators BinOps) o
     = List.filter (fun e => bool_decide (operatorOid e = o)) (allOverloads BinOps))
  /\ Permutation (catalogEntries (operators BinOps)) (allOverloads BinOps)
  /\ (forall o e, e ∈ operatorsAt (operators BinOps) o -> operatorOid e = o)
  /\ (forall op ovs bo,
        (op, ovs) ∈ BinOps -> bo ∈ ovs ->
        mkOperator bo op
        ∈ operatorsAt (operators BinOps) (types.Oid (tree.BinOp.ReturnType bo))).
Proof.
  assert (forall o,
     operatorsAt (operators BinOps) o
     = List.filter (fun e => bool_decide (operatorOid e = o)) (allOverloads BinOps))
    as Hat.
  { intros o. unfold operatorsAt.
    rewrite operators_flat, fold_appendAt_lookup. by rewrite lookup_empty. }
  split; [exact Hat|]. split; [|split].
  - rewrite operators_flat, fold_appendAt_entries.
    unfold catalogEntries. by rewrite map_to_list_empty.
  - intros o e. rewrite Hat, list_elem_of_In, filter_In.
    intros [_ He]. by apply bool_decide_eq_true in He.
  - intros op ovs bo Hop Hbo. rewrite Hat, list_elem_of_In, filter_In. split.
    + unfold allOverloads. apply in_flat_map. exists (op, ovs).
      split; [by apply list_elem_of_In|].
      apply (in_map (fun bo => mkOperator bo op)). by apply list_elem_of_In.
    + by apply bool_decide_eq_true.
Qed.

(** ** The function catalog *)

Lemma HasPrefix_spec s p :
  gostrings.HasPrefix s p = true <-> exists post, s = p +:+ post.
Proof.
  revert s. induction p as [|a p IH]; intros s.
  - split; [by exists s|by destruct s].
  - destruct s as [|b s]; simpl.
    + split; [done|]. by intros [post ?].
    + rewrite andb_true_iff, IH, Ascii.eqb_eq. split.
      * intros [-> [post ->]]. by exists post.
      * intros [post [= -> ->]]. split; [done|]. by exists post.
Qed.

(** [strings.Contains s substr] holds exactly when [substr] occurs in [s]. *)
Lemma Contains_spec s substr :
  gostrings.Contains s substr = true
  <-> exists pre post, s = pre +:+ substr +:+ post.
Proof.
  induction s as [|b s IH]; cbn [gostrings.Contains];
    rewrite orb_true_iff, HasPrefix_spec.
  - split.
    + intros [[post Hp]|]; [|done]. by exists "", post.
    + intros (pre & post & Hs). left. destruct pre; [by exists post|done].
  - rewrite IH. split.
    + intros [[post Hp]|(pre & post & ->)].
      * by exists "", post.
      * by exists (String b pre), post.
    + intros (pre & post & Hs). destruct pre as [|b' pre]; simpl in Hs.
      * left. by exists post.
      * right. injection Hs as -> ->. by exists pre, post.
Qed.

Section FunctionCatalog.
Variable AnyNonArray : list types.T.

Lemma foundNonArray_existsb typ :
  foundNonArray AnyNonArray typ
  = existsb (fun nonArrayTyp =>
               N.eqb (types.SemanticType typ) (types.SemanticType nonArrayTyp))
      AnyNonArray.
Proof.
  unfold foundNonArray. rewrite <- (orb_false_l (existsb _ _)).
  generalize false. induction AnyNonArray as [|T l IH]; intros b; simpl.
  - by rewrite orb_false_r.
  - rewrite IH. destruct (N.eqb _ _), b; simpl; by rewrite ?orb_true_r.
Qed.

Lemma functionsAt_insert m c' inner c o :
  functionsAt (<[c' := inner]> m) c o
  = if decide (c' = c) then default [] (inner !! o) else functionsAt m c o.
Proof.
  unfold functionsAt. destruct (decide (c' = c)) as [<-|Hne].
  - by rewrite lookup_insert_eq.
  - by rewrite lookup_insert_ne.
Qed.

Lemma functionsOverload_at d m ov c o :
  functionsAt (functionsOverload AnyNonArray d m ov) c o
  = functionsAt m c o
    ++ List.filter (fun f => bool_decide (functionKey f = (c, o)))
         (map (mkFunction d) (List.filter (overloadAllowed AnyNonArray) [ov])).
Proof.
  unfold functionsOverload, overloadAllowed. rewrite foundNonArray_existsb. simpl.
  destruct (gostrings.Contains (tree.Overload.Info ov) "Not usable"); simpl;
    [by rewrite app_nil_r|].
  destruct (existsb _ AnyNonArray); simpl; [|by rewrite app_nil_r].
  rewrite functionsAt_insert. unfold functionKey. simpl.
  destruct (decide (tree.FunctionDefinition.Class d = c)) as [<-|Hne].
  - rewrite appendAt_lookup. unfold functionsAt. f_equal.
    destruct (decide (types.Oid (tree.Overload.FixedReturnType ov) = o)) as [<-|Ho].
    + by rewrite bool_decide_eq_true_2.
    + rewrite bool_decide_eq_false_2; [done|]. by intros [= ?].
  - rewrite bool_decide_eq_false_2; [by rewrite app_nil_r|]. by intros [= ? ?].
Qed.

Lemma functionsOverloads_at d ovs :
  forall m c o,
    functionsAt (fold_left (functionsOverload AnyNonArray d) ovs m) c o
    = functionsAt m c o
      ++ List.filter (fun f => bool_decide (functionKey f = (c, o)))
           (map (mkFunction d) (List.filter (overloadAllowed AnyNonArray) ovs)).
Proof.
  induction ovs as [|ov ovs IH]; intros m c o; simpl.
  - by rewrite app_nil_r.
  - rewrite IH, functionsOverload_at, <- app_assoc. f_equal.
    rewrite <- List.filter_app, <- map_app. do 2 f_equal.
    simpl. by destruct (overloadAllowed AnyNonArray ov).
Qed.

Lemma functionsDef_at m d c o :
  functionsAt (functionsDef AnyNonArray m d) c o
  = functionsAt m c o
    ++ List.filter (fun f => bool_decide (functionKey f = (c, o)))
         (eligible AnyNonArray [d]).
Proof.
  unfold functionsDef, eligible, defAllowed. simpl. rewrite app_nil_r.
  destruct (String.eqb (tree.FunctionDefinition.Name d) "pg_sleep"); simpl;
    [by rewrite app_nil_r|].
  destruct (gostrings.Contains (tree.FunctionDefinition.Name d) "crdb_internal.force_");
    simpl; [by rewrite app_nil_r|].
  set (m' := match m !! tree.FunctionDefinition.Class d with
             | Some _ => m
             | None => <[tree.FunctionDefinition.Class d := ∅]> m
             end).
  assert (functionsAt m' c o = functionsAt m c o) as Hm'.
  { subst m'. destruct (m !! tree.FunctionDefinition.Class d) eqn:E; [done|].
    rewrite functionsAt_insert. case_decide; [|done]. subst c.
    unfold functionsAt. by rewrite E. }
  destruct (String.eqb (tree.FunctionDefinition.Category d) "Compatibility"); simpl;
    [by rewrite app_nil_r|].
  destruct (tree.FunctionDefinition.Private d); simpl; [by rewrite app_nil_r|].
  by rewrite functionsOverloads_at, Hm'.
Qed.

Lemma eligible_app a b :
  eligible AnyNonArray (a ++ b) = eligible AnyNonArray a ++ eligible AnyNonArray b.
Proof. unfold eligible. by rewrite flat_map_app. Qed.

Lemma functionsDefs_at FunDefs :
  forall m c o,
    functionsAt (fold_left (functionsDef AnyNonArray) FunDefs m) c o
    = functionsAt m c o
      ++ List.filter (fun f => bool_decide (functionKey f = (c, o)))
           (eligible AnyNonArray FunDefs).
Proof.
  induction FunDefs as [|d ds IH]; intros m c o; simpl.
  - by rewrite app_nil_r.
  - rewrite IH, functionsDef_at, <- app_assoc. f_equal.
    by rewrite <- List.filter_app, <- eligible_app.
Qed.

(** Under each key the catalog holds, in registry order, the overloads that
    pass the filter and have that key. *)
Lemma functions_at FunDefs c o :
  functionsAt (functions AnyNonArray FunDefs) c o
  = List.filter (fun f => bool_decide (functionKey f = (c, o)))
      (eligible AnyNonArray FunDefs).
Proof. unfold functions. by rewrite functionsDefs_at. Qed.

(** C6: what the function catalog contains.  An entry is stored under a
    (class, return type identifier) key exactly when it pairs a definition
    of the registry with one of its overloads, the definition is not
    [pg_sleep], has no [crdb_internal.force_] in its name, is not of
    category [Compatibility] and is not private, the overload's
    documentation does not contain [Not usable], the semantic type of its
    fixed return type is that of a member of [types.AnyNonArray], and the
    key is the class of the definition and the identifier of that return
    type. *)
Theorem functions_catalog_contents FunDefs c o f :
  f ∈ functionsAt (functions AnyNonArray FunDefs) c o
  <-> def f ∈ FunDefs
      /\ overload f ∈ tree.FunctionDefinition.Definition_ (def f)
      /\ tree.FunctionDefinition.Name (def f) <> "pg_sleep"
      /\ gostrings.Contains (tree.FunctionDefinition.Name (def f))
           "crdb_internal.force_" = false
      /\ tree.FunctionDefinition.Category (def f) <> "Compatibility"
      /\ tree.FunctionDefinition.Private (def f) = false
      /\ gostrings.Contains (tree.Overload.Info (overload f)) "Not usable" = false
      /\ (exists nonArrayTyp,
            nonArrayTyp ∈ AnyNonArray
            /\ types.SemanticType (tree.Overload.FixedReturnType (overload f))
               = types.SemanticType nonArrayTyp)
      /\ tree.FunctionDefinition.Class (def f) = c
      /\ types.Oid (tree.Overload.FixedReturnType (overload f)) = o.
Proof.
  rewrite functions_at, list_elem_of_In, filter_In, bool_decide_eq_true.
  unfold eligible, functionKey. rewrite in_flat_map.
  assert (forall d,
    defAllowed d = true
    <-> tree.FunctionDefinition.Name d <> "pg_sleep"
        /\ gostrings.Contains (tree.FunctionDefinition.Name d)
             "crdb_internal.force_" = false
        /\ tree.FunctionDefinition.Category d <> "Compatibility"
        /\ tree.FunctionDefinition.Private d = false) as Hdef.
  { intros d. unfold defAllowed.
    rewrite !andb_true_iff, !negb_true_iff, <- !not_true_iff_false, !String.eqb_eq.
    tauto. }
  assert (forall ov,
    overloadAllowed AnyNonArray ov = true
    <-> gostrings.Contains (tree.Overload.Info ov) "Not usable" = false
        /\ exists nonArrayTyp,
             nonArrayTyp ∈ AnyNonArray
             /\ types.SemanticType (tree.Overload.FixedReturnType ov)
                = types.SemanticType nonArrayTyp) as Hov.
  { intros ov. unfold overloadAllowed.
    rewrite andb_true_iff, negb_true_iff, existsb_exists.
    split; intros [H1 (T & H2 & H3)]; (split; [done|]); exists T.
    - apply N.eqb_eq in H3. by rewrite list_elem_of_In.
    - rewrite <- list_elem_of_In, N.eqb_eq. done. }
  split.
  - intros [(d & Hd & Hf) [= Hc Ho]].
    destruct (defAllowed d) eqn:Ed; [|done].
    apply in_map_iff in Hf as (ov & <- & [Hin Hok]%filter_In). simpl in *.
    apply Hdef in Ed as (? & ? & ? & ?). apply Hov in Hok as [? ?].
    rewrite !list_elem_of_In. done.
  - intros (Hd & Hin & Hn & Hforce & Hcat & Hpriv & Hinfo & Hsem & Hc & Ho).
    split; [|by rewrite Hc, Ho].
    exists (def f). split; [by apply list_elem_of_In|].
    rewrite (proj2 (Hdef (def f))) by done.
    apply in_map_iff. exists (overload f). split; [by destruct f|].
    apply filter_In. split; [by apply list_elem_of_In|]. by apply Hov.
Qed.
End FunctionCatalog.

(** ** Instances of the properties on concrete inputs *)

(** The first scenario of the specification. *)
Example grouping_scenario :
  extractTables Fixtures.typeFromName
    (mkDB (decoded Fixtures.scenarioRows None) Fixtures.noIndexes)
  = ([mkTableRef (tree.NewTableName "db" "t1")
        [tree.ColumnTableDef.mk "col_a" "INT4" tree.Null false;
         tree.ColumnTableDef.mk "col_b" "STRING" tree.NotNull false];
      mkTableRef (tree.NewTableName "db" "t2")
        [tree.ColumnTableDef.mk "col_c" "BOOL" tree.NotNull false]],
     None).
Proof. vm_compute. reflexivity. Qed.

(** The failed reload of [Fixtures.loadedCache]: the error comes from
    [extractIndexes], so the new table list is kept and the index catalog is
    the nil map. *)
Lemma ReloadSchemas_failure_overwrites_witness :
  let s := Fixtures.loadedCache in
  let r := ReloadSchemas Fixtures.typeFromName s in
  Smither.db s = Some Fixtures.failingDB
  /\ r = (Some (Some "index query failed"), after r, trace r)
  /\ Smither.rnd (after r) = Smither.rnd s
  /\ Smither.db (after r) = Smither.db s
  /\ ((extractTables Fixtures.typeFromName Fixtures.failingDB
        = (Smither.tables (after r), Some "index query failed")
       /\ Smither.indexes (after r) = Smither.indexes s)
      \/ (extractTables Fixtures.typeFromName Fixtures.failingDB
          = (Smither.tables (after r), None)
          /\ extractIndexes Fixtures.failingDB (Smither.tables (after r))
             = (∅, Some "index query failed")
          /\ Smither.indexes (after r) = ∅)).
Proof.
  intros s r.
  assert (r = (Some (Some "index query failed"), after r, trace r)) as Hr
    by (vm_compute; reflexivity).
  split; [reflexivity|]. split; [exact Hr|].
  exact (ReloadSchemas_failure_overwrites Fixtures.typeFromName s
           Fixtures.failingDB "index query failed" (after r) (trace r)
           eq_refl Hr).
Defined.

(** A cache without tables, and a cache whose only table has no index. *)
Lemma getRandIndex_not_found_outcome_witness :
  Smither.tables Fixtures.emptyCache = []
  /\ result (getRandIndex Fixtures.emptyCache) = Some notFound
  /\ Smither.tables Fixtures.cacheWithoutIndexes !! 0 = Some Fixtures.oneTable
  /\ result (getRandIndex Fixtures.cacheWithoutIndexes) = Some notFound.
Proof.
  split; [reflexivity|]. split.
  - exact (proj1 (getRandIndex_not_found_outcome Fixtures.emptyCache) eq_refl).
  - split; [reflexivity|].
    exact (proj1 (proj2 (getRandIndex_not_found_outcome
                           Fixtures.cacheWithoutIndexes))
             Fixtures.oneTable eq_refl eq_refl).
Defined.

(** Table [t] of [Fixtures.plainDB] has no index row and is a key of the
    catalog. *)
Lemma every_table_gets_an_entry_witness :
  extractIndexes Fixtures.plainDB [Fixtures.oneTable]
  = ({[ tree.NewTableName "db" "t" := ∅ ]}, None)
  /\ ({[ tree.NewTableName "db" "t" := ∅ ]}
      : gmap tree.TableName (gmap tree.Name tree.CreateIndex.t))
     !! tree.NewTableName "db" "t" = Some ∅.
Proof.
  split; [reflexivity|].
  destruct (every_table_gets_an_entry Fixtures.plainDB [Fixtures.oneTable]
              {[ tree.NewTableName "db" "t" := ∅ ]} Fixtures.oneTable
              eq_refl (list_elem_of_here _ _)) as (_ & H & _).
  exact (H eq_refl).
Defined.

(** Two runs of the target schema give two tables; a run of another schema
    gives fewer tables than runs. *)
Lemma extractTables_groups_retained_runs_witness :
  forallb publicRun (runs (retained Fixtures.twoTableRows)) = true
  /\ length (extractTables Fixtures.typeFromName
               (mkDB (decoded Fixtures.twoTableRows None) Fixtures.noIndexes)).1
     = length (runs (retained Fixtures.twoTableRows))
  /\ existsb (fun run => negb (publicRun run))
       (runs (retained Fixtures.mixedSchemaRows)) = true
  /\ length (extractTables Fixtures.typeFromName
               (mkDB (decoded Fixtures.mixedSchemaRows None) Fixtures.noIndexes)).1
     < length (runs (retained Fixtures.mixedSchemaRows)).
Proof.
  split; [reflexivity|]. split.
  - exact (proj1 (proj2 (extractTables_groups_retained_runs Fixtures.typeFromName
                           Fixtures.twoTableRows None Fixtures.noIndexes)) eq_refl).
  - split; [reflexivity|].
    exact (proj1 (proj2 (proj2 (extractTables_groups_retained_runs
                                  Fixtures.typeFromName Fixtures.mixedSchemaRows
                                  None Fixtures.noIndexes))) eq_refl).
Defined.

(** The index rows of the second scenario: [a] is a key column, [b] is
    stored, and the two lists share no name. *)
Lemma index_key_storing_partition_witness :
  rowsOf "idx1" Fixtures.idx1Rows <> []
  /\ exists m create,
       indexRows (tree.NewTableName "db" "t") ∅ (map inr Fixtures.idx1Rows) = inr m
       /\ m !! "idx1" = Some create
       /\ tree.CreateIndex.Storing create = ["b"]
       /\ tree.CreateIndex.Columns create = [tree.IndexElem.mk "a" tree.Ascending]
       /\ forall n,
            n ∈ map tree.IndexElem.Column (tree.CreateIndex.Columns create) ->
            n ∉ tree.CreateIndex.Storing create.
Proof.
  assert (rowsOf "idx1" Fixtures.idx1Rows <> []) as Hne by discriminate.
  split; [exact Hne|].
  destruct (index_key_storing_partition (tree.NewTableName "db" "t")
              Fixtures.idx1Rows "idx1" Hne)
    as (m & create & Hm & Hl & _ & _ & Hs & Hc & _ & Hdisj).
  exists m, create. split; [exact Hm|]. split; [exact Hl|].
  split; [exact Hs|]. split; [exact Hc|].
  apply Hdisj. intros r r' Hr Hr' Sr Sr'.
  change (rowsOf "idx1" Fixtures.idx1Rows) with Fixtures.idx1Rows in Hr, Hr'.
  unfold Fixtures.idx1Rows in Hr, Hr'.
  apply elem_of_cons in Hr as [->|Hr]; [discriminate Sr|].
  apply elem_of_cons in Hr' as [->|Hr'].
  - apply list_elem_of_singleton in Hr as ->. discriminate.
  - apply list_elem_of_singleton in Hr' as ->. discriminate Sr'.
Defined.

(** [length] passes the filter and is found under (class 0, oid 20). *)
Lemma functions_catalog_contents_witness :
  mkFunction Fixtures.lengthDef Fixtures.lengthOverload
  ∈ functionsAt (functions Fixtures.AnyNonArray Fixtures.FunDefs) 0%N 20%N.
Proof.
  apply (proj2 (functions_catalog_contents Fixtures.AnyNonArray Fixtures.FunDefs
                  0%N 20%N
                  (mkFunction Fixtures.lengthDef Fixtures.lengthOverload))).
  split; [right; left|]. split; [left|]. split; [discriminate|].
  split; [reflexivity|]. split; [discriminate|]. split; [reflexivity|].
  split; [reflexivity|]. split; [|split; reflexivity].
  exists Fixtures.intT. split; [left|reflexivity].
Defined.

(** The float overload of operator 3 is found under oid 701. *)
Lemma operators_reflect_the_registry_witness :
  (3%N, [Fixtures.plusInt; Fixtures.plusFloat]) ∈ Fixtures.BinOps
  /\ Fixtures.plusFloat ∈ [Fixtures.plusInt; Fixtures.plusFloat]
  /\ mkOperator Fixtures.plusFloat 3%N
     ∈ operatorsAt (operators Fixtures.BinOps) 701%N.
Proof.
  assert ((3%N, [Fixtures.plusInt; Fixtures.plusFloat]) ∈ Fixtures.BinOps) as H1
    by left.
  assert (Fixtures.plusFloat ∈ [Fixtures.plusInt; Fixtures.plusFloat]) as H2
    by (right; left).
  split; [exact H1|]. split; [exact H2|].
  exact (proj2 (proj2 (proj2 (operators_reflect_the_registry Fixtures.BinOps)))
           3%N [Fixtures.plusInt; Fixtures.plusFloat] Fixtures.plusFloat H1 H2).
Defined.

(** Column [b] of the emitted table [t2] comes from a row that is not
    hidden. *)
Lemma hidden_rows_contribute_nothing_witness :
  let db := mkDB (decoded Fixtures.hiddenThenVisible None) Fixtures.noIndexes in
  let t := mkTableRef (tree.NewTableName "db" "t2")
             [tree.ColumnTableDef.mk "b" "INT8" tree.NotNull false] in
  let c := tree.ColumnTableDef.mk "b" "INT8" tree.NotNull false in
  t ∈ (extractTables Fixtures.typeFromName db).1
  /\ c ∈ Columns t
  /\ exists rows r,
       QueryColumns db = inr rows /\ inr r ∈ gosql.scans rows
       /\ ColumnsQuery.hidden r = false
       /\ c = columnOf Fixtures.typeFromName r.
Proof.
  intros db t c.
  assert (t ∈ (extractTables Fixtures.typeFromName db).1) as Ht by left.
  assert (c ∈ Columns t) as Hc by left.
  split; [exact Ht|]. split; [exact Hc|].
  exact (proj2 (hidden_rows_contribute_nothing Fixtures.typeFromName db) t c Ht Hc).
Defined.

(** With index [idx1] on table [t], the draw of [getRandTableIndex] comes
    after the unlock. *)
Lemma rnd_access_and_the_lock_witness :
  let table := tree.NewTableName "db" "t" in
  default ∅ (Smither.indexes Fixtures.cacheWithIndex !! table) <> ∅
  /\ trace (getRandTableIndex table Fixtures.cacheWithIndex)
     = [RLock; RUnlock;
        RndIntn (size (default ∅ (Smither.indexes Fixtures.cacheWithIndex !! table)))]
  /\ guarded (trace (getRandTableIndex table Fixtures.cacheWithIndex)) = false.
Proof.
  intros table.
  assert (default ∅ (Smither.indexes Fixtures.cacheWithIndex !! table) <> ∅) as Hne.
  { intros H. apply (f_equal (fun m => m !! "idx1")) in H.
    vm_compute in H. discriminate H. }
  split; [exact Hne|].
  exact (proj1 (proj2 (rnd_access_and_the_lock Fixtures.cacheWithIndex table)) Hne).
Defined.

(** The hidden-only table [t2] between [t1] and [t3]. *)
Lemma all_hidden_run_emits_nothing_witness :
  let k := ("db", "public", "t2") in
  let res :=
    extractTables Fixtures.typeFromName
      (mkDB (decoded (Fixtures.beforeRun ++ Fixtures.hiddenRun ++ Fixtures.afterRun)
               None) Fixtures.noIndexes) in
  (forall r, r ∈ Fixtures.hiddenRun ->
             rowKey r = k /\ ColumnsQuery.hidden r = true)
  /\ (forall r, r ∈ Fixtures.beforeRun ++ Fixtures.afterRun -> rowKey r <> k)
  /\ res = extractTables Fixtures.typeFromName
             (mkDB (decoded (Fixtures.beforeRun ++ Fixtures.afterRun) None)
                Fixtures.noIndexes)
  /\ (forall t, t ∈ res.1 -> k.1.2 = "public" ->
                TableName t <> tree.NewTableName k.1.1 k.2)
  /\ (forall t, t ∈ res.1 -> Columns t <> []).
Proof.
  intros k res.
  assert (forall r, r ∈ Fixtures.hiddenRun ->
                    rowKey r = k /\ ColumnsQuery.hidden r = true) as H1.
  { intros r Hr. unfold Fixtures.hiddenRun in Hr.
    apply elem_of_cons in Hr as [->|Hr]; [by split|].
    apply list_elem_of_singleton in Hr as ->. by split. }
  assert (forall r, r ∈ Fixtures.beforeRun ++ Fixtures.afterRun -> rowKey r <> k)
    as H2.
  { intros r Hr. unfold Fixtures.beforeRun, Fixtures.afterRun in Hr. simpl in Hr.
    apply elem_of_cons in Hr as [->|Hr]; [discriminate|].
    apply list_elem_of_singleton in Hr as ->. discriminate. }
  split; [exact H1|]. split; [exact H2|].
  exact (all_hidden_run_emits_nothing Fixtures.typeFromName Fixtures.beforeRun
           Fixtures.hiddenRun Fixtures.afterRun None Fixtures.noIndexes k H1 H2).
Defined.

(** * Further properties of the code *)

(** ** [extractTables]: errors and invariants of the result *)

Section TablesMore.
Context {ColType : Type}.
Variable typeFromName : string -> ColType.

Lemma loopRows_scan_error (st : loopState ColType) pre e rest :
  loopRows typeFromName st (map inr pre ++ inl e :: rest) = inl e.
Proof.
  revert st. induction pre as [|r pre IH]; intros st; simpl; [done|]. apply IH.
Qed.

(** X1: a failed query, and a row that fails to decode wherever it stands in
    the stream, make [extractTables] return the nil list with that error:
    the tables collected from the rows before it are dropped and the rows
    after it are not read. *)
Theorem extractTables_early_errors_return_nil e pre rest err qi :
  extractTables typeFromName (mkDB (inl e) qi) = ([], Some e)
  /\ extractTables typeFromName
       (mkDB (inr (gosql.mkRows (map inr pre ++ inl e :: rest) err)) qi)
     = ([], Some e).
Proof.
  split; [done|]. unfold extractTables. simpl. by rewrite loopRows_scan_error.
Qed.

(** X2: [extractTables] returns a nil error exactly when the query
    succeeds, every row decodes and [rows.Err()] is nil. *)
Theorem extractTables_succeeds_iff (db : DB) :
  (extractTables typeFromName db).2 = None
  <-> exists rows, QueryColumns db = decoded rows None.
Proof.
  unfold extractTables, decoded. split.
  - destruct (QueryColumns db) as [e|[scans err]]; simpl; [done|].
    destruct (loopRows typeFromName loopInit scans) as [e|st] eqn:L; [done|].
    apply loopRows_inr in L as (rs & -> & _). simpl. intros ->. by exists rs.
  - intros [rows ->]. simpl. by rewrite loopRows_decoded.
Qed.

Lemma extractTables_tables_grouped (db : DB) (t : tableRef ColType) :
  t ∈ (extractTables typeFromName db).1 ->
  exists rows err,
    QueryColumns db = decoded rows err
    /\ (extractTables typeFromName db).1 = grouped typeFromName rows.
Proof.
  unfold extractTables.
  destruct (QueryColumns db) as [e|[scans err]]; simpl; [by intros ?%elem_of_nil|].
  destruct (loopRows typeFromName loopInit scans) as [e|st] eqn:L;
    simpl; [by intros ?%elem_of_nil|].
  apply loopRows_inr in L as (rs & -> & ->). intros _.
  exists rs, err. split; [done|]. apply loop_grouped.
Qed.

(** X3: whatever the database answers, no [tableRef] that [extractTables]
    returns has an empty column list. *)
Theorem extractTables_tables_have_columns (db : DB) (t : tableRef ColType) :
  t ∈ (extractTables typeFromName db).1 -> Columns t <> [].
Proof.
  intros Ht. destruct (extractTables_tables_grouped db t Ht) as (rows & err & _ & Hg).
  rewrite Hg in Ht. apply grouped_elem in Ht as (run & Hrun & _ & ->).
  destruct (runs_groups _ _ Hrun) as [Hne _]. simpl. by destruct (run.2).
Qed.

Lemma retained_run_of_row rs r :
  r ∈ rs -> ColumnsQuery.hidden r = false ->
  exists run, run ∈ runs (retained rs) /\ r ∈ run.2 /\ run.1 = rowKey r.
Proof.
  intros Hr Hvis.
  assert (r ∈ concat (map snd (runs (retained rs)))) as Hc.
  { rewrite runs_concat. apply list_elem_of_In, filter_In.
    split; [by apply list_elem_of_In|by rewrite Hvis]. }
  apply list_elem_of_In, in_concat in Hc as (g & Hg & Hrg).
  apply in_map_iff in Hg as (run & <- & Hrun).
  apply list_elem_of_In in Hrun, Hrg.
  exists run. split; [done|]. split; [done|].
  destruct (run_rows_retained rs run r Hrun Hrg) as (_ & _ & Hk). done.
Qed.

(** X4: which columns end up under which table name.  When every row
    decodes, a column definition is found in a returned table of name [n]
    exactly when it is built from a row that is not hidden, has schema
    [public], and has the catalog and table name of [n]. *)
Theorem extractTables_columns_by_table rows err qi n c :
  (exists t, t ∈ (extractTables typeFromName (mkDB (decoded rows err) qi)).1
             /\ TableName t = n /\ c ∈ Columns t)
  <-> (exists r, r ∈ rows /\ targetRow r = true
                 /\ tree.NewTableName (ColumnsQuery.catalog r) (ColumnsQuery.name r) = n
                 /\ c = columnOf typeFromName r).
Proof.
  rewrite extractTables_decoded. simpl. unfold targetRow. split.
  - intros (t & (run & Hrun & Hpub & ->)%grouped_elem & <- & Hc). simpl in Hc.
    apply list_elem_of_In, in_map_iff in Hc as (r & <- & Hr).
    apply list_elem_of_In in Hr.
    destruct (run_rows_retained rows run r Hrun Hr) as (Hin & Hvis & Hk).
    exists r. split; [done|]. unfold publicRun in Hpub.
    rewrite <- Hk in Hpub. simpl in Hpub. rewrite Hvis, Hpub.
    split; [done|]. split; [|done]. simpl. by rewrite <- Hk.
  - intros (r & Hr & [Hvis Hpub]%andb_true_iff & <- & ->).
    apply negb_true_iff in Hvis.
    destruct (retained_run_of_row rows r Hr Hvis) as (run & Hrun & Hrg & Hk).
    exists (tableOfRun typeFromName run). split; [|split].
    + unfold grouped. apply list_elem_of_In, in_map, filter_In.
      split; [by apply list_elem_of_In|]. unfold publicRun. by rewrite Hk.
    + simpl. by rewrite Hk.
    + simpl. apply list_elem_of_In, in_map. by apply list_elem_of_In.
Qed.

Lemma public_rows_of_runs
    (R : list (tree.Name * tree.Name * tree.Name * list ColumnsQuery.row)) :
  (forall run, run ∈ R -> Forall (fun r => rowKey r = run.1) run.2) ->
  concat (map snd (List.filter publicRun R))
  = List.filter (fun r => String.eqb (ColumnsQuery.schema r) "public")
      (concat (map snd R)).
Proof.
  induction R as [|run R IH]; intros HR; simpl; [done|].
  rewrite List.filter_app, <- IH by (intros run' H'; apply HR; by right).
  assert (Forall (fun r => rowKey r = run.1) run.2) as Hall by (apply HR; by left).
  unfold publicRun at 1.
  destruct (String.eqb run.1.1.2 "public") eqn:E; simpl; f_equal.
  - induction Hall as [|r g Hr _ IHg]; simpl; [done|].
    rewrite <- Hr in E. simpl in E. by rewrite E, <- IHg.
  - induction Hall as [|r g Hr _ IHg]; simpl; [done|].
    rewrite <- Hr in E. simpl in E. by rewrite E.
Qed.

(** X5: no column is lost, repeated or reordered.  When every row decodes,
    the columns of the returned tables, read table after table, are the
    column definitions of the rows that are not hidden and have schema
    [public], in input order. *)
Theorem extractTables_keeps_every_target_row rows err qi :
  concat (map Columns (extractTables typeFromName (mkDB (decoded rows err) qi)).1)
  = map (columnOf typeFromName) (List.filter targetRow rows).
Proof.
  rewrite extractTables_decoded. simpl. unfold grouped.
  rewrite map_map. simpl.
  transitivity (map (columnOf typeFromName)
                  (concat (map snd (List.filter publicRun (runs (retained rows)))))).
  { rewrite concat_map, map_map. done. }
  f_equal. rewrite public_rows_of_runs, runs_concat.
  - unfold retained, targetRow. clear.
    induction rows as [|r rows IH]; simpl; [done|].
    destruct (ColumnsQuery.hidden r); simpl; [done|].
    destruct (String.eqb (ColumnsQuery.schema r) "public"); by rewrite IH.
  - intros run Hrun. by destruct (runs_groups _ _ Hrun).
Qed.

Lemma NoDup_public_names
    (R : list (tree.Name * tree.Name * tree.Name * list ColumnsQuery.row)) :
  NoDup (map fst R) ->
  NoDup (map (fun run => nameOfKey run.1) (List.filter publicRun R)).
Proof.
  induction R as [|run R IH]; simpl; [constructor|].
  intros [Hnot Hnd]%NoDup_cons. specialize (IH Hnd).
  destruct (publicRun run) eqn:E; [|done]. simpl.
  apply NoDup_cons. split; [|done].
  intros Hin. apply Hnot.
  apply list_elem_of_In, in_map_iff in Hin as (run' & Hname & [Hin' Hpub']%filter_In).
  apply list_elem_of_In, in_map_iff. exists run'. split; [|done].
  unfold publicRun in E, Hpub'. apply String.eqb_eq in E, Hpub'.
  destruct run as [[[c s] n] g], run' as [[[c' s'] n'] g']. simpl in *.
  unfold nameOfKey in Hname. simpl in Hname. congruence.
Qed.

(** X6: when every row decodes and the rows that are not hidden keep the
    rows of each table together (no grouping key labels two runs, as the
    [ORDER BY] of the query ensures), no two returned tables have the same
    name. *)
Theorem extractTables_names_distinct rows err qi :
  NoDup (map fst (runs (retained rows))) ->
  NoDup (map TableName (extractTables typeFromName (mkDB (decoded rows err) qi)).1).
Proof.
  intros Hnd. rewrite extractTables_decoded. simpl. unfold grouped.
  rewrite map_map. simpl. by apply NoDup_public_names.
Qed.
End TablesMore.

(** ** [extractIndexes]: errors and invariants of the catalog *)

Lemma indexRows_inr t (m m' : gmap tree.Name tree.CreateIndex.t) scans :
  indexRows t m scans = inr m' ->
  exists rs, scans = map inr rs /\ m' = fold_left (indexBody t) rs m.
Proof.
  revert m. induction scans as [|[e|r] scans IH]; intros m; simpl.
  - intros [= <-]. by exists [].
  - discriminate.
  - intros (rs & -> & ->)%IH. by exists (r :: rs).
Qed.

Lemma tableIndexes_inr db t m :
  tableIndexes db t = inr m ->
  exists rs, QueryIndexes db t = decoded rs None
             /\ forall i, m !! i = assembled t rs i.
Proof.
  unfold tableIndexes, decoded.
  destruct (QueryIndexes db t) as [e|[scans err]]; simpl; [done|].
  destruct (indexRows t ∅ scans) as [e|m0] eqn:L; [done|].
  destruct err as [e|]; [done|]. intros [= <-].
  apply indexRows_inr in L as (rs & -> & ->).
  exists rs. split; [done|].
  intros i. by apply (indexFold_lookup t rs ∅ []).
Qed.

(** X7: the index query of a table yields a map exactly when the query
    succeeds, every row decodes and [rows.Err()] is nil; a failure at any of
    the three points discards the definitions built so far. *)
Theorem tableIndexes_succeeds_iff db t :
  (exists m, tableIndexes db t = inr m)
  <-> exists rs, QueryIndexes db t = decoded rs None.
Proof.
  split.
  - intros [m (rs & Hq & _)%tableIndexes_inr]. by exists rs.
  - intros [rs Hq]. destruct (tableIndexes_decoded db t rs Hq) as (m & Hm & _).
    by exists m.
Qed.

Lemma stored_index_fields db t m i create :
  tableIndexes db t = inr m ->
  m !! i = Some create ->
  tree.CreateIndex.Name create = i
  /\ tree.CreateIndex.Table create = t
  /\ (tree.CreateIndex.Columns create <> [] \/ tree.CreateIndex.Storing create <> []).
Proof.
  intros (rs & _ & Hl)%tableIndexes_inr Hi.
  rewrite Hl in Hi. unfold assembled in Hi.
  destruct (rowsOf i rs) as [|r l]; [done|].
  injection Hi as <-. simpl. split; [done|]. split; [done|].
  destruct (IndexesQuery.storing r); simpl; [by right|by left].
Qed.

(** X8: every index definition stored for a table carries the index name it
    is stored under and the name of the table, lists at least one key or
    storing column, and has exactly one key or storing column for each row
    of the query that carries its name. *)
Theorem stored_index_is_well_formed db t m i create :
  tableIndexes db t = inr m ->
  m !! i = Some create ->
  tree.CreateIndex.Name create = i
  /\ tree.CreateIndex.Table create = t
  /\ (tree.CreateIndex.Columns create <> [] \/ tree.CreateIndex.Storing create <> [])
  /\ exists rs,
       QueryIndexes db t = decoded rs None
       /\ length (tree.CreateIndex.Columns create)
          + length (tree.CreateIndex.Storing create)
          = length (rowsOf i rs).
Proof.
  intros Hm Hi.
  destruct (stored_index_fields db t m i create Hm Hi) as (Hn & Ht & Hne).
  do 3 (split; [done|]).
  apply tableIndexes_inr in Hm as (rs & Hq & Hl). exists rs. split; [done|].
  rewrite Hl in Hi. unfold assembled in Hi.
  assert (forall l : list IndexesQuery.row,
            length (List.filter (fun r => negb (IndexesQuery.storing r)) l)
            + length (List.filter IndexesQuery.storing l) = length l) as Hlen.
  { induction l as [|r0 l0 IH]; simpl; [done|].
    destruct (IndexesQuery.storing r0); simpl; lia. }
  destruct (rowsOf i rs) as [|r l] eqn:R; [done|]. rewrite <- R in Hi |- *.
  injection Hi as <-. simpl. by rewrite !length_map.
Qed.

(** X9: the definition of an index depends only on the rows that carry its
    name, in their order: rows of other indexes of the table, wherever they
    stand in the stream, do not change it. *)
Theorem index_definition_ignores_other_rows t rs rs' m m' i :
  indexRows t ∅ (map inr rs) = inr m ->
  indexRows t ∅ (map inr rs') = inr m' ->
  rowsOf i rs = rowsOf i rs' ->
  m !! i = m' !! i.
Proof.
  intros Hm Hm' Hrows.
  destruct (indexRows_assembled t rs) as (m0 & Hm0 & Hl).
  destruct (indexRows_assembled t rs') as (m0' & Hm0' & Hl').
  assert (m0 = m) as -> by congruence. assert (m0' = m') as -> by congruence.
  rewrite Hl, Hl'. unfold assembled. by rewrite Hrows.
Qed.

Section IndexCatalogMore.
Context {ColType : Type}.

Lemma extractIndexesLoop_first_failure db (pre : list (tableRef ColType)) t post e :
  Forall (fun t' => exists m, tableIndexes db (TableName t') = inr m) pre ->
  tableIndexes db (TableName t) = inl e ->
  forall ret0, extractIndexesLoop db ret0 (pre ++ t :: post) = (∅, Some e).
Proof.
  intros Hpre Ht. induction Hpre as [|t' pre [m Hm] _ IH]; intros ret0; simpl.
  - by rewrite Ht.
  - rewrite Hm. apply IH.
Qed.

(** X10: [extractIndexes] stops at the first table whose index query fails:
    it returns that table's error and the nil map, whatever was built for
    the tables before it and whatever the tables after it would give. *)
Theorem extractIndexes_first_failure db (pre : list (tableRef ColType)) t post e :
  Forall (fun t' => exists m, tableIndexes db (TableName t') = inr m) pre ->
  tableIndexes db (TableName t) = inl e ->
  extractIndexes db (pre ++ t :: post) = (∅, Some e).
Proof. intros Hpre Ht. by apply extractIndexesLoop_first_failure. Qed.

Lemma extractIndexesLoop_all_ok db (ts : list (tableRef ColType)) :
  Forall (fun t => exists m, tableIndexes db (TableName t) = inr m) ts ->
  forall ret0, exists ret, extractIndexesLoop db ret0 ts = (ret, None).
Proof.
  induction 1 as [|t ts [m Hm] _ IH]; intros ret0; simpl.
  - by exists ret0.
  - rewrite Hm. apply IH.
Qed.

Lemma extractIndexesLoop_keys db (ts : list (tableRef ColType)) :
  forall ret0 ret,
    extractIndexesLoop db ret0 ts = (ret, None) ->
    forall k, is_Some (ret !! k) <-> is_Some (ret0 !! k) \/ k ∈ map TableName ts.
Proof.
  induction ts as [|t ts IH]; intros ret0 ret; simpl.
  - intros [= <-] k. split; [by left|]. intros [H|H]; [done|by apply elem_of_nil in H].
  - destruct (tableIndexes db (TableName t)) as [e|m]; [done|].
    intros H k. rewrite (IH _ _ H k), lookup_insert_is_Some, elem_of_cons.
    destruct (decide (TableName t = k)) as [<-|Hne]; [tauto|].
    intuition congruence.
Qed.

(** X11: [extractIndexes] succeeds exactly when the index query of every
    table of the list succeeds, and the keys of the catalog it then returns
    are the names of the tables of the list and no others. *)
Theorem extractIndexes_succeeds_iff db (tables : list (tableRef ColType)) :
  ((extractIndexes db tables).2 = None
   <-> forall t, t ∈ tables -> exists m, tableIndexes db (TableName t) = inr m)
  /\ (forall ret k,
        extractIndexes db tables = (ret, None) ->
        (is_Some (ret !! k) <-> k ∈ map TableName tables)).
Proof.
  split.
  - split.
    + destruct (extractIndexes db tables) as [ret err] eqn:E. simpl. intros ->.
      intros t Ht. apply extractIndexesLoop_ok in E as [Hin _].
      destruct (Hin t Ht) as (m & Hm & _). by exists m.
    + intros Hall.
      destruct (extractIndexesLoop_all_ok db tables) with (ret0 := (∅ : gmap tree.TableName (gmap tree.Name tree.CreateIndex.t)))
        as [ret Hret]; [by apply Forall_forall|].
      unfold extractIndexes. by rewrite Hret.
  - intros ret k H. unfold extractIndexes in H.
    rewrite (extractIndexesLoop_keys _ _ _ _ H k), lookup_empty.
    split; [intros [[? ?]|?]; done|by right].
Qed.
End IndexCatalogMore.

(** ** The schema cache: picks, lock use and reloads *)

Section CacheMore.
Context {ColType : Type}.
Variable typeFromName : string -> ColType.
Implicit Types s : Smither.t ColType.

(** X12: [getRandTable] never panics and changes nothing but the generator.
    On an empty table list it answers [nil, false] and leaves the generator
    alone; otherwise it answers [true] with a table of the list. *)
Theorem getRandTable_picks_a_member s :
  Smither.tables (after (getRandTable s)) = Smither.tables s
  /\ Smither.indexes (after (getRandTable s)) = Smither.indexes s
  /\ Smither.db (after (getRandTable s)) = Smither.db s
  /\ ((Smither.tables s = [] /\ result (getRandTable s) = Some (None, false)
       /\ after (getRandTable s) = s)
      \/ (exists t, t ∈ Smither.tables s
                    /\ result (getRandTable s) = Some (Some t, true))).
Proof.
  destruct (decide (Smither.tables s = [])) as [H|H].
  - rewrite getRandTable_empty by done. simpl.
    do 3 (split; [done|]). by left.
  - destruct (getRandTable_pick s H) as (t & Ht & ->). simpl.
    do 3 (split; [done|]). right. exists t. split; [|done].
    by apply list_elem_of_lookup_2 in Ht.
Qed.

(** X13: every table of the list can be picked: for each of them there is a
    state of the generator with which [getRandTable] returns it. *)
Theorem getRandTable_reaches_every_table s t :
  t ∈ Smither.tables s ->
  exists r, result (getRandTable (withRnd s r)) = Some (Some t, true).
Proof.
  intros [i Hi]%list_elem_of_lookup_1.
  exists (rand.mk (fun _ => i) 0).
  assert (Smither.tables (withRnd s (rand.mk (fun _ => i) 0)) <> []) as Hne.
  { simpl. intros E. by rewrite E in Hi. }
  destruct (getRandTable_pick _ Hne) as (t' & Ht' & ->). simpl.
  unfold draw, rand.Intn in Ht'. simpl in Ht'.
  rewrite Nat.mod_small in Ht' by (by apply lookup_lt_Some in Hi).
  unfold result. simpl. congruence.
Qed.

(** X14: [getRandTableIndex] never panics and changes nothing but the
    generator.  For a table with no entry or an empty entry in the catalog
    it answers [nil, nil, false] and leaves the generator alone; otherwise
    it answers [true] with an index definition stored for that table, and
    the name it returns pairs the table asked for with the [Name] field of
    that definition. *)
Theorem getRandTableIndex_picks_from_the_table s table :
  Smither.tables (after (getRandTableIndex table s)) = Smither.tables s
  /\ Smither.indexes (after (getRandTableIndex table s)) = Smither.indexes s
  /\ Smither.db (after (getRandTableIndex table s)) = Smither.db s
  /\ ((default ∅ (Smither.indexes s !! table) = ∅
       /\ result (getRandTableIndex table s) = Some notFound
       /\ after (getRandTableIndex table s) = s)
      \/ (exists n idx,
            default ∅ (Smither.indexes s !! table) !! n = Some idx
            /\ result (getRandTableIndex table s)
               = Some (Some (tree.TableIndexName.mk table (tree.CreateIndex.Name idx)),
                       Some idx, true))).
Proof.
  destruct (decide (default ∅ (Smither.indexes s !! table) = ∅)) as [H|H].
  - rewrite getRandTableIndex_empty by done. simpl.
    do 3 (split; [done|]). by left.
  - destruct (getRandTableIndex_pick s table H) as (n & idx & Hn & ->). simpl.
    do 3 (split; [done|]). right. by exists n, idx.
Qed.

Lemma getRandIndex_found_inv s ti idx :
  result (getRandIndex s) = Some (Some ti, Some idx, true) ->
  exists t n,
    t ∈ Smither.tables s
    /\ default ∅ (Smither.indexes s !! TableName t) !! n = Some idx
    /\ ti = tree.TableIndexName.mk (TableName t) (tree.CreateIndex.Name idx).
Proof.
  destruct (decide (Smither.tables s = [])) as [H|H].
  - unfold getRandIndex, bind. by rewrite getRandTable_empty.
  - destruct (getRandTable_pick s H) as (t & Ht & Hpick).
    unfold getRandIndex, bind. rewrite Hpick. simpl.
    set (s1 := drawn s (length (Smither.tables s))).
    destruct (decide (default ∅ (Smither.indexes s1 !! TableName t) = ∅)) as [E|E].
    + by rewrite getRandTableIndex_empty.
    + destruct (getRandTableIndex_pick s1 (TableName t) E) as (n & c & Hn & ->).
      simpl. intros [= <- <-]. exists t, n.
      split; [by apply list_elem_of_lookup_2 in Ht|]. by split.
Qed.

(** X15: [getRandIndex] changes nothing but the generator, and an index
    that it finds is stored in the catalog for a table of the table list,
    the name returned with it pairing that table with the [Name] field of
    the definition. *)
Theorem getRandIndex_finds_a_cached_index s :
  Smither.tables (after (getRandIndex s)) = Smither.tables s
  /\ Smither.indexes (after (getRandIndex s)) = Smither.indexes s
  /\ Smither.db (after (getRandIndex s)) = Smither.db s
  /\ forall ti idx,
       result (getRandIndex s) = Some (Some ti, Some idx, true) ->
       exists t n,
         t ∈ Smither.tables s
         /\ default ∅ (Smither.indexes s !! TableName t) !! n = Some idx
         /\ ti = tree.TableIndexName.mk (TableName t) (tree.CreateIndex.Name idx).
Proof.
  split; [|split; [|split]]; [| | |apply getRandIndex_found_inv].
  all: destruct (decide (Smither.tables s = [])) as [H|H];
    [unfold getRandIndex, bind; by rewrite getRandTable_empty|].
  all: destruct (getRandTable_pick s H) as (t & _ & Hpick);
    unfold getRandIndex, bind; rewrite Hpick; simpl;
    set (s1 := drawn s (length (Smither.tables s)));
    destruct (decide (default ∅ (Smither.indexes s1 !! TableName t) = ∅)) as [E|E];
    [by rewrite getRandTableIndex_empty
    |by destruct (getRandTableIndex_pick s1 (TableName t) E) as (n & c & _ & ->)].
Qed.

(** X16: every method uses [s.lock] correctly.  Started with the lock free,
    each of them acquires it only while not holding it, releases only the
    mode it holds, and returns with the lock free. *)
Theorem methods_leave_the_lock_free s table :
  lockRun lockFree (trace (ReloadSchemas typeFromName s)) = Some lockFree
  /\ lockRun lockFree (trace (getRandTable s)) = Some lockFree
  /\ lockRun lockFree (trace (getIndexes table s)) = Some lockFree
  /\ lockRun lockFree (trace (getRandTableIndex table s)) = Some lockFree
  /\ lockRun lockFree (trace (getRandIndex s)) = Some lockFree.
Proof.
  assert (forall s, lockRun lockFree (trace (getRandTable s)) = Some lockFree) as HT.
  { intros s0. destruct (decide (Smither.tables s0 = [])) as [H|H].
    - by rewrite getRandTable_empty.
    - by destruct (getRandTable_pick s0 H) as (t & _ & ->). }
  assert (forall s table,
            lockRun lockFree (trace (getRandTableIndex table s)) = Some lockFree)
    as HI.
  { intros s0 tb.
    destruct (decide (default ∅ (Smither.indexes s0 !! tb) = ∅)) as [H|H].
    - by rewrite getRandTableIndex_empty.
    - by destruct (getRandTableIndex_pick s0 tb H) as (n & idx & _ & ->). }
  split; [|split; [apply HT|split; [done|split; [apply HI|]]]].
  - unfold ReloadSchemas, bind, get, put, ret, emitEvent, defer.
    destruct (Smither.db s) as [d|]; [|done].
    destruct (extractTables typeFromName d) as [tbls [e|]]; simpl; [done|].
    by destruct (extractIndexes d tbls) as [idxs e2].
  - destruct (decide (Smither.tables s = [])) as [H|H].
    + unfold getRandIndex, bind. by rewrite getRandTable_empty.
    + destruct (getRandTable_pick s H) as (t & _ & Hpick).
      unfold getRandIndex, bind. rewrite Hpick. simpl.
      set (s1 := drawn s (length (Smither.tables s))).
      destruct (decide (default ∅ (Smither.indexes s1 !! TableName t) = ∅)) as [E|E].
      * by rewrite getRandTableIndex_empty.
      * by destruct (getRandTableIndex_pick s1 (TableName t) E) as (n & c & _ & ->).
Qed.

Lemma ReloadSchemas_eval s d :
  Smither.db s = Some d ->
  ReloadSchemas typeFromName s
  = let '(tbls, err) := extractTables typeFromName d in
    match err with
    | Some e =>
        (Some (Some e),
         Smither.mk (Smither.rnd s) (Smither.db s) tbls (Smither.indexes s),
         [Lock; Unlock])
    | None =>
        let '(idxs, err) := extractIndexes d tbls in
        (Some err, Smither.mk (Smither.rnd s) (Smither.db s) tbls idxs,
         [Lock; Unlock])
    end.
Proof.
  intros Hd. unfold ReloadSchemas, bind, get, put, ret, emitEvent, defer.
  rewrite Hd.
  destruct (extractTables typeFromName d) as [tbls [e|]]; simpl; [done|].
  by destruct (extractIndexes d tbls) as [idxs e2].
Qed.

(** X17: a reload is a full reload.  With a connection, the error returned
    and the table list installed depend on the database only, not on what
    the cache held; so does the index catalog installed, unless
    [extractTables] failed; and [rnd] and [db] are never changed. *)
Theorem ReloadSchemas_depends_on_the_database_only s1 s2 d :
  Smither.db s1 = Some d ->
  Smither.db s2 = Some d ->
  let r1 := ReloadSchemas typeFromName s1 in
  let r2 := ReloadSchemas typeFromName s2 in
  result r1 = result r2
  /\ Smither.tables (after r1) = Smither.tables (after r2)
  /\ ((extractTables typeFromName d).2 = None ->
      Smither.indexes (after r1) = Smither.indexes (after r2))
  /\ Smither.rnd (after r1) = Smither.rnd s1
  /\ Smither.db (after r1) = Smither.db s1.
Proof.
  intros H1 H2 r1 r2. subst r1 r2.
  rewrite (ReloadSchemas_eval s1 d H1), (ReloadSchemas_eval s2 d H2).
  destruct (extractTables typeFromName d) as [tbls [e|]]; simpl; [done|].
  by destruct (extractIndexes d tbls) as [idxs e2].
Qed.

(** X18: reloading again after a successful reload, with the same database,
    succeeds and leaves the cache as it is. *)
Theorem ReloadSchemas_twice s s' tr :
  ReloadSchemas typeFromName s = (Some None, s', tr) ->
  result (ReloadSchemas typeFromName s') = Some None
  /\ after (ReloadSchemas typeFromName s') = s'.
Proof.
  destruct (Smither.db s) as [d|] eqn:Hd.
  - rewrite (ReloadSchemas_eval s d Hd).
    destruct (extractTables typeFromName d) as [tbls [e|]] eqn:ET; [done|].
    destruct (extractIndexes d tbls) as [idxs e2] eqn:EI.
    intros [= -> <- _].
    rewrite (ReloadSchemas_eval _ d) by done. rewrite ET, EI. simpl.
    by rewrite Hd.
  - rewrite ReloadSchemas_no_db by done. intros [= <- _].
    by rewrite ReloadSchemas_no_db.
Qed.

(** X19: when iteration over the column rows ends with an error after rows
    were read, [ReloadSchemas] returns that error and yet installs the
    tables grouped from the rows read so far; the index catalog keeps its
    previous value, so it may describe other tables than the list does. *)
Theorem ReloadSchemas_keeps_partial_tables s d rows e :
  Smither.db s = Some d ->
  QueryColumns d = decoded rows (Some e) ->
  result (ReloadSchemas typeFromName s) = Some (Some e)
  /\ Smither.tables (after (ReloadSchemas typeFromName s))
     = grouped typeFromName rows
  /\ Smither.indexes (after (ReloadSchemas typeFromName s)) = Smither.indexes s.
Proof.
  intros Hd Hq. rewrite (ReloadSchemas_eval s d Hd).
  assert (extractTables typeFromName d = (grouped typeFromName rows, Some e)) as ->.
  { destruct d as [qc qi]. simpl in Hq. subst qc. apply extractTables_decoded. }
  done.
Qed.

(** X20: after a successful reload the reads agree with the database.  For
    every table of the new list [getIndexes] returns the map built from that
    table's index rows; for any other table name it returns the empty map;
    and an index found by [getRandIndex] names the table it is stored for
    and is stored under its own name. *)
Theorem reads_after_a_successful_reload s d s' tr :
  Smither.db s = Some d ->
  ReloadSchemas typeFromName s = (Some None, s', tr) ->
  (forall t, t ∈ Smither.tables s' ->
     exists m, tableIndexes d (TableName t) = inr m
               /\ result (getIndexes (TableName t) s') = Some m)
  /\ (forall k, k ∉ map TableName (Smither.tables s') ->
        result (getIndexes k s') = Some ∅)
  /\ (forall ti idx,
        result (getRandIndex s') = Some (Some ti, Some idx, true) ->
        exists t, t ∈ Smither.tables s'
                  /\ tree.CreateIndex.Table idx = TableName t
                  /\ ti = tree.TableIndexName.mk (TableName t)
                            (tree.CreateIndex.Name idx)
                  /\ default ∅ (Smither.indexes s' !! TableName t)
                       !! tree.CreateIndex.Name idx = Some idx).
Proof.
  intros Hd Hr.
  destruct (ReloadSchemas_success typeFromName s d s' tr Hd Hr) as [_ EI].
  pose proof (extractIndexesLoop_ok _ _ _ _ EI) as [Hin _].
  split; [|split].
  - intros t Ht. destruct (Hin t Ht) as (m & Hm & Hl). exists m.
    split; [done|]. rewrite getIndexes_eval. simpl. by rewrite Hl.
  - intros k Hk. rewrite getIndexes_eval. simpl. f_equal.
    destruct (Smither.indexes s' !! k) as [m|] eqn:E; [|done].
    exfalso. apply Hk.
    unfold extractIndexes in EI.
    destruct (proj1 (extractIndexesLoop_keys _ _ _ _ EI k)) as [[? Hempty]|?];
      [by rewrite E| |done].
    by rewrite lookup_empty in Hempty.
  - intros ti idx (t & n & Ht & Hn & ->)%getRandIndex_found_inv.
    destruct (Hin t Ht) as (m & Hm & Hl). rewrite Hl in Hn. simpl in Hn.
    destruct (stored_index_fields d (TableName t) m n idx Hm Hn)
      as (Hname & Htable & _).
    exists t. split; [done|]. split; [done|]. split; [done|].
    rewrite Hl. simpl. by rewrite Hname.
Qed.
End CacheMore.

(** ** The catalogs: keys, stored slices and registry order *)

Lemma List_filter_Permutation {A} (f : A -> bool) l l' :
  Permutation l l' -> Permutation (List.filter f l) (List.filter f l').
Proof.
  induction 1 as [|x l l' _ IH|x y l|l l' l'' _ IH1 _ IH2]; simpl.
  - constructor.
  - destruct (f x); [by constructor|done].
  - destruct (f x), (f y); first [apply perm_swap | reflexivity].
  - by etransitivity.
Qed.

Lemma fold_appendAt_raw {K} `{Countable K} {A} (key : A -> K) l :
  forall (m : gmap K (list A)) k,
    fold_left (fun m x => appendAt m (key x) x) l m !! k
    = match List.filter (fun x => bool_decide (key x = k)) l with
      | [] => m !! k
      | kept => Some (default [] (m !! k) ++ kept)
      end.
Proof.
  induction l as [|x l IH]; intros m k; simpl; [done|].
  rewrite IH. unfold appendAt at 1 2.
  destruct (decide (key x = k)) as [E|E].
  - rewrite bool_decide_eq_true_2 by done. subst k.
    rewrite lookup_insert_eq. simpl.
    destruct (List.filter _ l); simpl; [done|]. by rewrite <- app_assoc.
  - rewrite bool_decide_eq_false_2 by done. by rewrite lookup_insert_ne.
Qed.

(** X21: a return type identifier is a key of the operator catalog exactly
    when some overload of the registry returns that type, and no key holds
    an empty slice. *)
Theorem operators_keys BinOps o :
  (is_Some (operators BinOps !! o)
   <-> exists e, e ∈ allOverloads BinOps /\ operatorOid e = o)
  /\ (forall l, operators BinOps !! o = Some l -> l <> []).
Proof.
  rewrite operators_flat, fold_appendAt_raw, lookup_empty.
  destruct (List.filter _ (allOverloads BinOps)) as [|e kept] eqn:F; simpl.
  - split; [|done]. split; [by intros [? ?]|].
    intros (e & He & Ho). exfalso.
    assert (In e (List.filter (fun x => bool_decide (operatorOid x = o))
                    (allOverloads BinOps))) as Hin.
    { apply filter_In. split; [by apply list_elem_of_In|by apply bool_decide_eq_true]. }
    by rewrite F in Hin.
  - split; [|by intros l [= <-]]. split; [|done]. intros _.
    assert (In e (List.filter (fun x => bool_decide (operatorOid x = o))
                    (allOverloads BinOps))) as Hin by (rewrite F; by left).
    apply filter_In in Hin as [Hin Ho]. exists e.
    split; [by apply list_elem_of_In|by apply bool_decide_eq_true in Ho].
Qed.

Lemma allOverloads_Permutation B B' :
  Permutation B B' -> Permutation (allOverloads B) (allOverloads B').
Proof. intros HP. unfold allOverloads. by apply Permutation_flat_map. Qed.

(** X22: the order in which [range] visits [tree.BinOps] only affects the
    order inside the slices.  For two visiting orders of one registry the
    catalogs have the same keys, and under each key the same entries up to
    order. *)
Theorem operators_up_to_registry_order B B' o :
  Permutation B B' ->
  Permutation (operatorsAt (operators B) o) (operatorsAt (operators B') o)
  /\ (is_Some (operators B !! o) <-> is_Some (operators B' !! o)).
Proof.
  intros HP.
  pose proof (List_filter_Permutation (fun x => bool_decide (operatorOid x = o)) _ _
                (allOverloads_Permutation B B' HP)) as HF.
  split.
  - unfold operatorsAt. rewrite !operators_flat, !fold_appendAt_lookup.
    by rewrite lookup_empty.
  - rewrite !operators_flat, !fold_appendAt_raw, lookup_empty.
    destruct (List.filter _ (allOverloads B)) as [|e l] eqn:F1,
             (List.filter _ (allOverloads B')) as [|e' l'] eqn:F2; simpl; try done.
    + by apply Permutation_nil_cons in HF.
    + symmetry in HF. by apply Permutation_nil_cons in HF.
Qed.

Section FunctionCatalogMore.
Variable AnyNonArray : list types.T.

Lemma functionsOverload_keys d m ov c :
  is_Some (m !! tree.FunctionDefinition.Class d) ->
  is_Some (functionsOverload AnyNonArray d m ov !! c) <-> is_Some (m !! c).
Proof.
  intros Hd. unfold functionsOverload.
  destruct (gostrings.Contains _ _); [done|].
  destruct (negb _); [done|].
  rewrite lookup_insert_is_Some.
  destruct (decide (tree.FunctionDefinition.Class d = c)) as [<-|Hne]; [tauto|].
  tauto.
Qed.

Lemma functionsOverloads_keys d ovs :
  forall m c,
    is_Some (m !! tree.FunctionDefinition.Class d) ->
    is_Some (fold_left (functionsOverload AnyNonArray d) ovs m !! c)
    <-> is_Some (m !! c).
Proof.
  induction ovs as [|ov ovs IH]; intros m c Hd; simpl; [done|].
  rewrite IH; [by apply functionsOverload_keys|].
  by apply functionsOverload_keys.
Qed.

Lemma functionsDef_keys m d c :
  is_Some (functionsDef AnyNonArray m d !! c)
  <-> is_Some (m !! c)
      \/ (nameAllowed d = true /\ tree.FunctionDefinition.Class d = c).
Proof.
  unfold functionsDef, nameAllowed.
  destruct (String.eqb (tree.FunctionDefinition.Name d) "pg_sleep"); simpl;
    [split; [by left|by intros [?|[? ?]]]|].
  destruct (gostrings.Contains (tree.FunctionDefinition.Name d) "crdb_internal.force_");
    simpl; [split; [by left|by intros [?|[? ?]]]|].
  set (m' := match m !! tree.FunctionDefinition.Class d with
             | Some _ => m
             | None => <[tree.FunctionDefinition.Class d := ∅]> m
             end).
  assert (is_Some (m' !! tree.FunctionDefinition.Class d)) as Hd.
  { subst m'. destruct (m !! tree.FunctionDefinition.Class d) eqn:E.
    - by rewrite E.
    - by rewrite lookup_insert_eq. }
  assert (is_Some (m' !! c)
          <-> is_Some (m !! c) \/ (true = true /\ tree.FunctionDefinition.Class d = c))
    as Hm'.
  { subst m'. destruct (m !! tree.FunctionDefinition.Class d) eqn:E.
    - split; [by left|]. intros [?|[_ <-]]; [done|by rewrite E].
    - rewrite lookup_insert_is_Some.
      destruct (decide (tree.FunctionDefinition.Class d = c)); tauto. }
  destruct (String.eqb (tree.FunctionDefinition.Category d) "Compatibility");
    [done|].
  destruct (tree.FunctionDefinition.Private d); [done|].
  by rewrite functionsOverloads_keys.
Qed.

Lemma functionsOverload_slices d m ov :
  slicesNonEmpty m -> slicesNonEmpty (functionsOverload AnyNonArray d m ov).
Proof.
  intros Hm. unfold functionsOverload.
  destruct (gostrings.Contains _ _); [done|].
  destruct (negb _); [done|].
  intros c inner o l.
  destruct (decide (tree.FunctionDefinition.Class d = c)) as [<-|Hne].
  - rewrite lookup_insert_eq. intros [= <-]. unfold appendAt.
    destruct (decide (types.Oid (tree.Overload.FixedReturnType ov) = o)) as [<-|Ho].
    + rewrite lookup_insert_eq. intros [= <-]. by destruct (default [] _).
    + rewrite lookup_insert_ne by done.
      destruct (m !! tree.FunctionDefinition.Class d) as [inner0|] eqn:E; simpl.
      * by apply (Hm _ _ _ _ E).
      * by rewrite lookup_empty.
  - rewrite lookup_insert_ne by done. apply Hm.
Qed.

Lemma functionsDef_slices m d :
  slicesNonEmpty m -> slicesNonEmpty (functionsDef AnyNonArray m d).
Proof.
  intros Hm. unfold functionsDef.
  destruct (String.eqb _ _); [done|].
  destruct (gostrings.Contains _ _); [done|].
  set (m' := match m !! tree.FunctionDefinition.Class d with
             | Some _ => m
             | None => <[tree.FunctionDefinition.Class d := ∅]> m
             end).
  assert (slicesNonEmpty m') as Hm'.
  { subst m'. destruct (m !! tree.FunctionDefinition.Class d) eqn:E; [done|].
    intros c inner o l.
    destruct (decide (tree.FunctionDefinition.Class d = c)) as [<-|Hne].
    - rewrite lookup_insert_eq. intros [= <-]. by rewrite lookup_empty.
    - rewrite lookup_insert_ne by done. apply Hm. }
  destruct (String.eqb _ _); [done|].
  destruct (tree.FunctionDefinition.Private d); [done|].
  clearbody m'. revert m' Hm'.
  induction (tree.FunctionDefinition.Definition_ d) as [|ov ovs IH];
    intros m' Hm'; simpl; [done|].
  apply IH. by apply functionsOverload_slices.
Qed.

(** X23: a function class is a key of the function catalog exactly when the
    registry has a definition of that class whose name passes the name test
    (it is not [pg_sleep] and has no [crdb_internal.force_] in it), even if
    the definition is private or of category [Compatibility] or all its
    overloads are filtered out, in which case the class may hold no entry;
    and no slice stored in the catalog is empty. *)
Theorem functions_keys FunDefs c :
  (is_Some (functions AnyNonArray FunDefs !! c)
   <-> exists d, d ∈ FunDefs /\ nameAllowed d = true
                 /\ tree.FunctionDefinition.Class d = c)
  /\ (forall inner o l,
        functions AnyNonArray FunDefs !! c = Some inner ->
        inner !! o = Some l -> l <> []).
Proof.
  unfold functions. split.
  - assert (forall m,
      is_Some (fold_left (functionsDef AnyNonArray) FunDefs m !! c)
      <-> is_Some (m !! c)
          \/ exists d, d ∈ FunDefs /\ nameAllowed d = true
                       /\ tree.FunctionDefinition.Class d = c) as Hgen.
    { induction FunDefs as [|d ds IH]; intros m; simpl.
      - split; [by left|]. intros [?|(d & Hd & _)]; [done|by apply elem_of_nil in Hd].
      - rewrite IH, functionsDef_keys. split.
        + intros [[?|[? ?]]|(d' & Hd' & ?)]; [by left| |].
          * right. exists d. split; [by left|done].
          * right. exists d'. split; [by right|done].
        + intros [?|(d' & [->|Hd']%elem_of_cons & ? & ?)].
          * by left; left.
          * by left; right.
          * right. by exists d'. }
    rewrite Hgen, lookup_empty. split; [|by right].
    intros [[? ?]|?]; done.
  - assert (forall m, slicesNonEmpty m ->
              slicesNonEmpty (fold_left (functionsDef AnyNonArray) FunDefs m)) as Hgen.
    { induction FunDefs as [|d ds IH]; intros m Hm; simpl; [done|].
      apply IH. by apply functionsDef_slices. }
    intros inner o l. apply Hgen. intros c' inner' o' l'. by rewrite lookup_empty.
Qed.

(** X24: the order in which [range] visits [tree.FunDefs] only affects the
    order inside the slices: for two visiting orders of one registry, the
    entries under each (class, return type identifier) key are the same up
    to order. *)
Theorem functions_up_to_registry_order FunDefs FunDefs' c o :
  Permutation FunDefs FunDefs' ->
  Permutation (functionsAt (functions AnyNonArray FunDefs) c o)
    (functionsAt (functions AnyNonArray FunDefs') c o).
Proof.
  intros HP. rewrite !functions_at. apply List_filter_Permutation.
  unfold eligible. by apply Permutation_flat_map.
Qed.
End FunctionCatalogMore.

(** ** Instances of the further properties on concrete inputs *)

Lemma Pop_first_and_rest {ColType} (t : list (tableRef ColType)) :
  match Pop t with
  | None => t = []
  | Some (first, rest) => t = first :: rest
  end.
Proof. by destruct t. Qed.

(** Table [t2] of the hidden-then-visible input has a column. *)
Lemma extractTables_tables_have_columns_witness :
  let db := mkDB (decoded Fixtures.hiddenThenVisible None) Fixtures.noIndexes in
  Fixtures.tableT2 ∈ (extractTables Fixtures.typeFromName db).1
  /\ Columns Fixtures.tableT2 <> [].
Proof.
  intros db.
  assert (Fixtures.tableT2 ∈ (extractTables Fixtures.typeFromName db).1) as Ht
    by left.
  split; [exact Ht|].
  exact (extractTables_tables_have_columns Fixtures.typeFromName db
           Fixtures.tableT2 Ht).
Defined.

(** Column [b] is found under [t2] because a visible public row says so. *)
Lemma extractTables_columns_by_table_witness :
  exists t,
    t ∈ (extractTables Fixtures.typeFromName
           (mkDB (decoded Fixtures.twoTableRows None) Fixtures.noIndexes)).1
    /\ TableName t = Fixtures.t2
    /\ tree.ColumnTableDef.mk "b" "INT8" tree.NotNull false ∈ Columns t.
Proof.
  apply (proj2 (extractTables_columns_by_table Fixtures.typeFromName
                  Fixtures.twoTableRows None Fixtures.noIndexes Fixtures.t2
                  (tree.ColumnTableDef.mk "b" "INT8" tree.NotNull false))).
  exists (Fixtures.visibleRow "t2" "b").
  split; [right; left|]. split; [reflexivity|]. split; reflexivity.
Defined.

(** The two tables of [Fixtures.twoTableRows] have different names. *)
Lemma extractTables_names_distinct_witness :
  NoDup (map fst (runs (retained Fixtures.twoTableRows)))
  /\ NoDup (map TableName
             (extractTables Fixtures.typeFromName
                (mkDB (decoded Fixtures.twoTableRows None) Fixtures.noIndexes)).1).
Proof.
  assert (NoDup (map fst (runs (retained Fixtures.twoTableRows)))) as H.
  { apply (bool_decide_unpack _). vm_compute. exact I. }
  split; [exact H|].
  exact (extractTables_names_distinct Fixtures.typeFromName Fixtures.twoTableRows
           None Fixtures.noIndexes H).
Defined.

(** The column query of [Fixtures.workingDB] succeeds. *)
Lemma extractTables_succeeds_iff_witness :
  (extractTables Fixtures.typeFromName Fixtures.workingDB).2 = None.
Proof.
  apply (proj2 (extractTables_succeeds_iff Fixtures.typeFromName Fixtures.workingDB)).
  by exists Fixtures.twoTableRows.
Defined.

(** The index query of [t1] in [Fixtures.workingDB] succeeds. *)
Lemma tableIndexes_succeeds_iff_witness :
  exists m, tableIndexes Fixtures.workingDB Fixtures.t1 = inr m.
Proof.
  apply (proj2 (tableIndexes_succeeds_iff Fixtures.workingDB Fixtures.t1)).
  by exists Fixtures.idx1Rows.
Defined.

(** The definition stored for [idx1] of [t1]. *)
Lemma stored_index_is_well_formed_witness :
  exists m create,
    tableIndexes Fixtures.workingDB Fixtures.t1 = inr m
    /\ m !! "idx1" = Some create
    /\ tree.CreateIndex.Name create = "idx1"
    /\ tree.CreateIndex.Table create = Fixtures.t1.
Proof.
  destruct (tableIndexes_decoded Fixtures.workingDB Fixtures.t1 Fixtures.idx1Rows
              eq_refl) as (m & Hm & Hl).
  exists m, (tree.CreateIndex.mk "idx1" Fixtures.t1
               [tree.IndexElem.mk "a" tree.Ascending] ["b"]).
  assert (m !! "idx1"
          = Some (tree.CreateIndex.mk "idx1" Fixtures.t1
                    [tree.IndexElem.mk "a" tree.Ascending] ["b"])) as Hi
    by (by rewrite Hl).
  split; [exact Hm|]. split; [exact Hi|].
  destruct (stored_index_is_well_formed Fixtures.workingDB Fixtures.t1 m "idx1" _
              Hm Hi) as (H1 & H2 & _).
  by split.
Defined.

(** A row of [idx2] between the rows of [idx1] leaves [idx1] as it is. *)
Lemma index_definition_ignores_other_rows_witness :
  rowsOf "idx1" Fixtures.idx1Rows = rowsOf "idx1" Fixtures.interleavedRows
  /\ exists m m',
       indexRows Fixtures.t1 ∅ (map inr Fixtures.idx1Rows) = inr m
       /\ indexRows Fixtures.t1 ∅ (map inr Fixtures.interleavedRows) = inr m'
       /\ m !! "idx1" = m' !! "idx1".
Proof.
  split; [reflexivity|].
  destruct (indexRows_assembled Fixtures.t1 Fixtures.idx1Rows) as (m & Hm & _).
  destruct (indexRows_assembled Fixtures.t1 Fixtures.interleavedRows)
    as (m' & Hm' & _).
  exists m, m'. split; [exact Hm|]. split; [exact Hm'|].
  exact (index_definition_ignores_other_rows Fixtures.t1 Fixtures.idx1Rows
           Fixtures.interleavedRows m m' "idx1" Hm Hm' eq_refl).
Defined.

(** The index query of [t2] fails after that of [t1] succeeded. *)
Lemma extractIndexes_first_failure_witness :
  tableIndexes Fixtures.failingDB Fixtures.t2 = inl "index query failed"
  /\ extractIndexes Fixtures.failingDB [Fixtures.tableT1; Fixtures.tableT2]
     = (∅, Some "index query failed").
Proof.
  split; [reflexivity|].
  apply (extractIndexes_first_failure Fixtures.failingDB [Fixtures.tableT1]
           Fixtures.tableT2 [] "index query failed"); [|reflexivity].
  constructor; [|constructor].
  destruct (tableIndexes_decoded Fixtures.failingDB Fixtures.t1 Fixtures.idx1Rows
              eq_refl) as (m & Hm & _).
  by exists m.
Defined.

(** With [Fixtures.workingDB] both index queries succeed. *)
Lemma extractIndexes_succeeds_iff_witness :
  (extractIndexes Fixtures.workingDB [Fixtures.tableT1; Fixtures.tableT2]).2 = None.
Proof.
  apply (proj2 (proj1 (extractIndexes_succeeds_iff Fixtures.workingDB
                         [Fixtures.tableT1; Fixtures.tableT2]))).
  intros t Ht. apply elem_of_cons in Ht as [->|Ht].
  - destruct (tableIndexes_decoded Fixtures.workingDB Fixtures.t1 Fixtures.idx1Rows
                eq_refl) as (m & Hm & _). by exists m.
  - apply list_elem_of_singleton in Ht as ->.
    destruct (tableIndexes_decoded Fixtures.workingDB Fixtures.t2 [] eq_refl)
      as (m & Hm & _). by exists m.
Defined.

(** The only table of [Fixtures.cacheWithIndex] can be picked. *)
Lemma getRandTable_reaches_every_table_witness :
  Fixtures.oneTable ∈ Smither.tables Fixtures.cacheWithIndex
  /\ exists r,
       result (getRandTable (withRnd Fixtures.cacheWithIndex r))
       = Some (Some Fixtures.oneTable, true).
Proof.
  assert (Fixtures.oneTable ∈ Smither.tables Fixtures.cacheWithIndex) as H by left.
  split; [exact H|].
  exact (getRandTable_reaches_every_table Fixtures.cacheWithIndex Fixtures.oneTable H).
Defined.

(** The index found in [Fixtures.cacheWithIndex] is the one stored for [t]. *)
Lemma getRandIndex_finds_a_cached_index_witness :
  result (getRandIndex Fixtures.cacheWithIndex)
  = Some (Some (tree.TableIndexName.mk (tree.NewTableName "db" "t") "idx1"),
          Some Fixtures.idx1, true)
  /\ exists t n,
       t ∈ Smither.tables Fixtures.cacheWithIndex
       /\ default ∅ (Smither.indexes Fixtures.cacheWithIndex !! TableName t) !! n
          = Some Fixtures.idx1
       /\ tree.TableIndexName.mk (tree.NewTableName "db" "t") "idx1"
          = tree.TableIndexName.mk (TableName t)
              (tree.CreateIndex.Name Fixtures.idx1).
Proof.
  assert (result (getRandIndex Fixtures.cacheWithIndex)
          = Some (Some (tree.TableIndexName.mk (tree.NewTableName "db" "t") "idx1"),
                  Some Fixtures.idx1, true)) as H by (vm_compute; reflexivity).
  split; [exact H|].
  exact (proj2 (proj2 (proj2 (getRandIndex_finds_a_cached_index
                                Fixtures.cacheWithIndex))) _ _ H).
Defined.

(** A loaded and an empty cache on [Fixtures.failingDB] reload alike. *)
Lemma ReloadSchemas_depends_on_the_database_only_witness :
  Smither.db Fixtures.loadedCache = Some Fixtures.failingDB
  /\ Smither.db Fixtures.freshFailingCache = Some Fixtures.failingDB
  /\ result (ReloadSchemas Fixtures.typeFromName Fixtures.loadedCache)
     = result (ReloadSchemas Fixtures.typeFromName Fixtures.freshFailingCache)
  /\ Smither.tables (after (ReloadSchemas Fixtures.typeFromName Fixtures.loadedCache))
     = Smither.tables
         (after (ReloadSchemas Fixtures.typeFromName Fixtures.freshFailingCache)).
Proof.
  split; [reflexivity|]. split; [reflexivity|].
  destruct (ReloadSchemas_depends_on_the_database_only Fixtures.typeFromName
              Fixtures.loadedCache Fixtures.freshFailingCache Fixtures.failingDB
              eq_refl eq_refl) as (H1 & H2 & _).
  by split.
Defined.

(** Reloading [Fixtures.freshCache] twice. *)
Lemma ReloadSchemas_twice_witness :
  let r := ReloadSchemas Fixtures.typeFromName Fixtures.freshCache in
  r = (Some None, after r, trace r)
  /\ result (ReloadSchemas Fixtures.typeFromName (after r)) = Some None
  /\ after (ReloadSchemas Fixtures.typeFromName (after r)) = after r.
Proof.
  intros r.
  assert (r = (Some None, after r, trace r)) as Hr by (vm_compute; reflexivity).
  split; [exact Hr|].
  exact (ReloadSchemas_twice Fixtures.typeFromName Fixtures.freshCache
           (after r) (trace r) Hr).
Defined.

(** The reload of [Fixtures.interruptedCache] fails and installs the two
    tables read before the error. *)
Lemma ReloadSchemas_keeps_partial_tables_witness :
  let r := ReloadSchemas Fixtures.typeFromName Fixtures.interruptedCache in
  result r = Some (Some "iteration failed")
  /\ Smither.tables (after r)
     = grouped Fixtures.typeFromName Fixtures.twoTableRows
  /\ Smither.indexes (after r) = Smither.indexes Fixtures.interruptedCache.
Proof.
  exact (ReloadSchemas_keeps_partial_tables Fixtures.typeFromName
           Fixtures.interruptedCache Fixtures.interruptedDB Fixtures.twoTableRows
           "iteration failed" eq_refl eq_refl).
Defined.

(** After the reload of [Fixtures.freshCache], [getIndexes] of [t1] returns
    the map built from the index rows of [t1]. *)
Lemma reads_after_a_successful_reload_witness :
  let r := ReloadSchemas Fixtures.typeFromName Fixtures.freshCache in
  r = (Some None, after r, trace r)
  /\ Fixtures.tableT1 ∈ Smither.tables (after r)
  /\ exists m,
       tableIndexes Fixtures.workingDB (TableName Fixtures.tableT1) = inr m
       /\ result (getIndexes (TableName Fixtures.tableT1) (after r)) = Some m.
Proof.
  intros r.
  assert (r = (Some None, after r, trace r)) as Hr by (vm_compute; reflexivity).
  assert (Fixtures.tableT1 ∈ Smither.tables (after r)) as Ht.
  { assert (Smither.tables (after r) = [Fixtures.tableT1; Fixtures.tableT2]) as ->
      by (vm_compute; reflexivity).
    left. }
  split; [exact Hr|]. split; [exact Ht|].
  exact (proj1 (reads_after_a_successful_reload Fixtures.typeFromName
                  Fixtures.freshCache Fixtures.workingDB (after r) (trace r)
                  eq_refl Hr) Fixtures.tableT1 Ht).
Defined.

(** Oid 701 is a key of the catalog of [Fixtures.BinOps]. *)
Lemma operators_keys_witness :
  mkOperator Fixtures.plusFloat 3%N ∈ allOverloads Fixtures.BinOps
  /\ is_Some (operators Fixtures.BinOps !! 701%N).
Proof.
  assert (mkOperator Fixtures.plusFloat 3%N ∈ allOverloads Fixtures.BinOps) as H
    by (right; left).
  split; [exact H|].
  apply (proj2 (proj1 (operators_keys Fixtures.BinOps 701%N))).
  exists (mkOperator Fixtures.plusFloat 3%N). by split.
Defined.

(** The two visiting orders of the operator registry. *)
Lemma operators_up_to_registry_order_witness :
  Permutation Fixtures.BinOps Fixtures.BinOpsSwapped
  /\ Permutation (operatorsAt (operators Fixtures.BinOps) 20%N)
       (operatorsAt (operators Fixtures.BinOpsSwapped) 20%N).
Proof.
  assert (Permutation Fixtures.BinOps Fixtures.BinOpsSwapped) as H
    by apply perm_swap.
  split; [exact H|].
  exact (proj1 (operators_up_to_registry_order Fixtures.BinOps
                  Fixtures.BinOpsSwapped 20%N H)).
Defined.

(** Class 1 is a key of the function catalog although its only definition
    is private. *)
Lemma functions_keys_witness :
  Fixtures.privateDef ∈ Fixtures.privateDef :: Fixtures.FunDefs
  /\ nameAllowed Fixtures.privateDef = true
  /\ is_Some (functions Fixtures.AnyNonArray
               (Fixtures.privateDef :: Fixtures.FunDefs) !! 1%N)
  /\ functionsAt (functions Fixtures.AnyNonArray
                   (Fixtures.privateDef :: Fixtures.FunDefs)) 1%N 20%N = [].
Proof.
  assert (Fixtures.privateDef ∈ Fixtures.privateDef :: Fixtures.FunDefs) as H
    by left.
  split; [exact H|]. split; [reflexivity|]. split.
  - apply (proj2 (proj1 (functions_keys Fixtures.AnyNonArray
                           (Fixtures.privateDef :: Fixtures.FunDefs) 1%N))).
    exists Fixtures.privateDef. split; [exact H|]. by split.
  - vm_compute. reflexivity.
Defined.

(** The two visiting orders of the function registry. *)
Lemma functions_up_to_registry_order_witness :
  Permutation Fixtures.FunDefs Fixtures.FunDefsSwapped
  /\ Permutation
       (functionsAt (functions Fixtures.AnyNonArray Fixtures.FunDefs) 0%N 20%N)
       (functionsAt (functions Fixtures.AnyNonArray Fixtures.FunDefsSwapped) 0%N 20%N).
Proof.
  assert (Permutation Fixtures.FunDefs Fixtures.FunDefsSwapped) as H
    by apply perm_swap.
  split; [exact H|].
  exact (functions_up_to_registry_order Fixtures.AnyNonArray Fixtures.FunDefs
           Fixtures.FunDefsSwapped 0%N 20%N H).
Defined.
